(** * ddm_monitor: the news ingestion pipeline of [main.py]

    A shallow embedding of the crawl-and-publish pipeline: the on-disk
    layout under [data/], the publisher ([save_posts],
    [archive_current_posts], [update_posts]), the detail resolver
    ([fetch_post_detail]), the crawl run ([scrape_ddm_news]), the daily
    trigger ([periodic_scrape]) and the read endpoint ([get_posts]).

    Conventions of the embedding.
    - A Python dict with a fixed set of keys is a record; a key that may be
      absent is an [option] field.
    - The file system is a finite map from path strings to file contents.
      Every call that can raise [OSError] takes one bit of a fault plan that
      says whether it raises, and a move also what it leaves behind when it
      does; a function that catches the exception returns the [bool] the
      Python function returns, next to the new file system.
    - A clock reading is the fields of the wall clock; where the timezone
      matters it comes with the UTC offset of its [tzinfo], and a timezone
      is the offset in force at each instant.
    - The network is an oracle from a request (its position and its URL) to
      the outcome of [client.get]; pages come already parsed, since the DOM
      queries of selectolax are outside the pipeline's logic.
    - [print] calls are dropped. *)

From Stdlib Require Import ZArith Lia Ascii.
From stdpp Require Import gmap strings list pretty.

#[local] Open Scope string_scope.
#[local] Open Scope list_scope.

(** ** Posts *)

(** The dict built for each listing item (main.py, lines 245-251), with the
    two keys that the detail step may add later. *)
Record post := mk_post {
  title : string;
  detail_url : string;
  date : string;
  tags : list string;
  description : string;
  content : option string;
  error : option string
}.

(** The dict returned by [fetch_post_detail]: [{"url": url}] plus the keys
    [content] and [error] when they have been set. *)
Record detail := mk_detail {
  d_url : string;
  d_content : option string;
  d_error : option string
}.

(** ** Wall-clock time *)

(** The fields of a [datetime] object. The [tzinfo] an aware datetime
    carries besides them is added by [aware] below. *)
Record datetime := mk_datetime {
  year : nat; month : nat; day : nat;
  hour : nat; minute : nat; second : nat; microsecond : nat
}.

(** [str.zfill]: left-pad with zeros up to [width]. *)
Definition zfill (width : nat) (s : string) : string :=
  String.concat "" (replicate (width - String.length s) "0") +:+ s.

(** [strftime("%Y%m%d")] *)
Definition strftime_Ymd (d : datetime) : string :=
  zfill 4 (pretty (year d)) +:+ zfill 2 (pretty (month d))
    +:+ zfill 2 (pretty (day d)).

(** [strftime("%Y%m%d_%H%M")] *)
Definition strftime_Ymd_HM (d : datetime) : string :=
  strftime_Ymd d +:+ "_" +:+ zfill 2 (pretty (hour d))
    +:+ zfill 2 (pretty (minute d)).

(** ** The file system *)

(** What a file holds: the complete [json.dump] of a list of posts, or the
    torn prefix that an interrupted [json.dump] leaves behind. *)
Inductive file_content :=
  | Dump (posts : list post)
  | Truncated (posts : list post).

Abbreviation filesystem := (gmap string file_content).

(** [Path.__truediv__] *)
Definition path_join (dir name : string) : string := dir +:+ "/" +:+ name.

Definition DATA_DIR : string := "data".
Definition CURRENT_DIR : string := path_join DATA_DIR "current".
Definition ARCHIVE_DIR : string := path_join DATA_DIR "archive".
Definition POSTS_FILE : string := path_join CURRENT_DIR "posts.json".
Definition POSTS_NEW_FILE : string := path_join CURRENT_DIR "posts_new.json".

(** [Path.exists] *)
Definition exists_ (p : string) (fs : filesystem) : bool :=
  bool_decide (is_Some (fs !! p)).

(** How [open(path, 'w')] followed by [json.dump] can go wrong: [open]
    raises and nothing is touched, or the file has been created (and
    emptied) and [json.dump] raises part-way. *)
Inductive write_fault := OpenFails | DumpFails.

(** What a raising [shutil.move] of a file leaves behind. It tries
    [os.rename]; on an [OSError] it falls back to copying [src] onto [dst]
    and unlinking [src]. So it can raise with nothing written, with [dst]
    written in part (the copy raised on the way), or with [dst] written in
    full and [src] still there (the unlink raised). *)
Inductive move_residue := LeavesNothing | LeavesTornCopy | LeavesFullCopy.

(** What is left of a file whose writing was interrupted. *)
Definition torn (c : file_content) : file_content :=
  match c with
  | Dump posts | Truncated posts => Truncated posts
  end.

Definition left_behind (residue : move_residue) (c : file_content)
    (dst : string) (fs : filesystem) : filesystem :=
  match residue with
  | LeavesNothing => fs
  | LeavesTornCopy => <[dst := torn c]> fs
  | LeavesFullCopy => <[dst := c]> fs
  end.

(** [shutil.move] of a file. [inl]: it returns; [dst] holds what [src]
    held, any former [dst] is replaced, and [src] is gone. [inr]: it
    raises, [src] is still there and [dst] is as [residue] says; a missing
    [src] raises with nothing touched. *)
Definition shutil_move (raises : bool) (residue : move_residue)
    (src dst : string) (fs : filesystem) : filesystem + filesystem :=
  match fs !! src with
  | None => inr fs
  | Some c =>
      if raises then inr (left_behind residue c dst fs)
      else inl (<[dst := c]> (delete src fs))
  end.

Definition raised (r : filesystem + filesystem) : bool :=
  match r with
  | inl _ => false
  | inr _ => true
  end.

(** The OS-level failures of one [update_posts] call. *)
Record faults := mk_faults {
  save_fault : option write_fault;
  archive_move_fails : bool;
  commit_move_fails : bool;
  unlink_fails : bool;
  archive_move_leaves : move_residue;
  commit_move_leaves : move_residue
}.

Definition no_faults : faults :=
  mk_faults None false false false LeavesNothing LeavesNothing.

(** ** The publisher *)

(** main.py, lines 44-52 *)
Definition load_current_posts (fs : filesystem) : list post :=
  match fs !! POSTS_FILE with
  | Some (Dump posts) => posts
  | Some (Truncated _) => []
  | None => []
  end.

(** main.py, lines 54-62 *)
Definition save_posts (fault : option write_fault) (posts : list post)
    (file_path : string) (fs : filesystem) : bool * filesystem :=
  match fault with
  | None => (true, <[file_path := Dump posts]> fs)
  | Some OpenFails => (false, fs)
  | Some DumpFails => (false, <[file_path := Truncated posts]> fs)
  end.

(** The name chosen by [archive_current_posts]; [now1] and [now2] are the
    two readings of [datetime.now()] (lines 70 and 75). *)
Definition day_archive_file (now1 : datetime) : string :=
  path_join ARCHIVE_DIR ("posts_" +:+ strftime_Ymd now1 +:+ ".json").

Definition minute_archive_file (now2 : datetime) : string :=
  path_join ARCHIVE_DIR ("posts_" +:+ strftime_Ymd_HM now2 +:+ ".json").

Definition archive_file (now1 now2 : datetime) (fs : filesystem) : string :=
  if exists_ (day_archive_file now1) fs
  then minute_archive_file now2
  else day_archive_file now1.

(** main.py, lines 64-82 *)
Definition archive_current_posts (move_raises : bool)
    (residue : move_residue) (now1 now2 : datetime) (fs : filesystem)
  : bool * filesystem :=
  if negb (exists_ POSTS_FILE fs) then (true, fs)
  else match shutil_move move_raises residue POSTS_FILE
               (archive_file now1 now2 fs) fs with
       | inl fs' => (true, fs')
       | inr fs' => (false, fs')
       end.

(** The [except] block of [update_posts] (lines 100-106): remove the staged
    file if it is there; a failing [unlink] is swallowed. *)
Definition cleanup_staged (unlink_raises : bool) (fs : filesystem) : filesystem :=
  if exists_ POSTS_NEW_FILE fs
  then (if unlink_raises then fs else delete POSTS_NEW_FILE fs)
  else fs.

(** main.py, lines 84-106 *)
Definition update_posts (ft : faults) (now1 now2 : datetime)
    (new_posts : list post) (fs : filesystem) : bool * filesystem :=
  let (staged, fs1) := save_posts (save_fault ft) new_posts POSTS_NEW_FILE fs in
  if negb staged then (false, fs1)
  else
    let (archived, fs2) :=
      archive_current_posts (archive_move_fails ft) (archive_move_leaves ft)
        now1 now2 fs1 in
    if negb archived then (false, fs2)
    else match shutil_move (commit_move_fails ft) (commit_move_leaves ft)
                 POSTS_NEW_FILE POSTS_FILE fs2 with
         | inl fs3 => (true, fs3)
         | inr fs3 => (false, cleanup_staged (unlink_fails ft) fs3)
         end.

(** ** The network *)

(** What [await client.get(url, ...)] does: it raises
    [httpx.TimeoutException], [httpx.RequestError] or something else, or it
    returns a response with a status code and a body, here already parsed
    into the part of the document the caller looks at. An exception raised
    while the body is parsed is an [OtherException] too. *)
Inductive http_outcome (A : Type) :=
  | TimeoutException
  | RequestError (msg : string)
  | OtherException (msg : string)
  | Response (status_code : Z) (body : A).
Arguments TimeoutException {A}.
Arguments RequestError {A} msg.
Arguments OtherException {A} msg.
Arguments Response {A} status_code body.

(** ** The detail resolver *)

(** The body of a detail page as [fetch_post_detail] sees it:
    [tree.css_first('.district')], and inside it [p.text(strip=True)] for
    each [p]. *)
Definition detail_page := option (list string).

Definition newline : string := String "010"%char "".

(** ['\n\n'.join(t for t in texts if t)] *)
Definition join_paragraphs (texts : list string) : string :=
  String.concat (newline +:+ newline)
    (filter (λ t, t ≠ "") texts).

(** main.py, lines 111-168. [client] is the outcome of the one request this
    call makes. *)
Definition fetch_post_detail (client : string → http_outcome detail_page)
    (url : string) : detail :=
  match client url with
  | Response status_code body =>
      if bool_decide (status_code ≠ 200%Z)
      then mk_detail url None (Some ("HTTP " +:+ pretty status_code))
      else match body with
           | Some paragraphs =>
               let content := join_paragraphs paragraphs in
               if bool_decide (content = "")
               then mk_detail url (Some "") None
               else mk_detail url (Some content) None
           | None => mk_detail url (Some "") None
           end
  | TimeoutException =>
      mk_detail url None (Some ("Timeout while fetching " +:+ url))
  | RequestError e =>
      mk_detail url None (Some ("Request error for " +:+ url +:+ ": " +:+ e))
  | OtherException e =>
      mk_detail url None
        (Some ("Unexpected error fetching " +:+ url +:+ ": " +:+ e))
  end.

(** ** Listing pages *)

(** One [.item] element: the [.cont .title a] link (its text and its [href]
    attribute, [""] when the attribute is missing), the [.date] text, the
    texts of the [.tag] elements and the [.desc] text. *)
Record item := mk_item {
  title_link : option (string * string);
  date_text : option string;
  tag_texts : list string;
  desc_text : option string
}.

(** The forward-navigation control: no [a.next] element, an [onclick]
    without [pagingHelper.getList], an [onclick] the regular expression does
    not match, or the page number it captures. *)
Inductive next_control :=
  | NoNextLink
  | NoPagingHelper
  | NoPageNumber
  | NextPage (next_page_num : nat).

Record listing_page := mk_listing_page {
  all_items : list item;
  next_page : next_control
}.

Definition ENTRY_URL : string :=
  "https://www.ddm.org.tw/xmnews?xsmsid=0K297379120077217595".

(** Lines 216-258 for one item: [None] is a [continue]. *)
Definition post_of_item (it : item) : option post :=
  match title_link it with
  | None => None
  | Some (title, href) =>
      if bool_decide (href = "") then None
      else Some (mk_post title ("https://www.ddm.org.tw" +:+ href)
                   (default "" (date_text it))
                   (filter (λ t, t ≠ "") (tag_texts it))
                   (default "" (desc_text it))
                   None None)
  end.

(** Lines 204-258: the posts one page appends to [all_posts]. *)
Definition page_posts (page : listing_page) : list post :=
  let items := filter (λ it, is_Some (title_link it)) (drop 3 (all_items page)) in
  omap post_of_item items.

(** Lines 262-283: the new value of [current_url]. *)
Definition next_url (page : listing_page) : option string :=
  match next_page page with
  | NextPage next_page_num =>
      Some ("https://www.ddm.org.tw/xmnews?xsmsid=0K297379120077217595&page="
              +:+ pretty next_page_num)
  | NoNextLink | NoPagingHelper | NoPageNumber => None
  end.

(** How the [while current_url:] loop is left: by the [return] of line 200,
    or by falling out of the loop (the condition fails, or a [break]) with
    the posts collected so far. *)
Inductive loop_exit :=
  | ReturnEarly
  | LoopDone (all_posts : list post).

(** Lines 190-294. [req] counts the requests made so far; the loop has no
    bound of its own, [fuel] bounds the pages visited and [None] means the
    loop is still running when it is used up. *)
Fixpoint pagination_loop (fuel : nat)
    (client : nat → string → http_outcome listing_page)
    (req : nat) (current_url : option string) (all_posts : list post)
  : option loop_exit :=
  match current_url with
  | None => Some (LoopDone all_posts)
  | Some url =>
      match fuel with
      | O => None
      | S fuel' =>
          match client req url with
          | Response status_code page =>
              if bool_decide (status_code ≠ 200%Z) then Some ReturnEarly
              else pagination_loop fuel' client (S req) (next_url page)
                     (all_posts ++ page_posts page)
          | TimeoutException | RequestError _ | OtherException _ =>
              Some (LoopDone all_posts)
          end
      end
  end.

(** ** The batched detail step *)

(** [range(0, stop, step)] for [step > 0]. *)
Definition py_range_step (stop step : nat) : list nat :=
  (λ k, k * step) <$> seq 0 (Nat.div (stop + step - 1) step).

(** [asyncio.gather] with [return_exceptions=True]: one result per task,
    in the order of the tasks; a task that raised contributes its exception
    (here its message) in place of a value. *)
Definition gather (tasks : list detail) : list (string + detail) :=
  inr <$> tasks.

(** Lines 310-317: what one detail result writes into its post. *)
Definition record_detail (d : string + detail) (p : post) : post :=
  match d with
  | inl exc =>
      mk_post (title p) (detail_url p) (date p) (tags p) (description p)
        (content p) (Some exc)
  | inr d =>
      let p1 :=
        match d_content d with
        | Some c =>
            mk_post (title p) (detail_url p) (date p) (tags p) (description p)
              (Some c) (error p)
        | None => p
        end in
      match d_error d with
      | Some e =>
          mk_post (title p1) (detail_url p1) (date p1) (tags p1)
            (description p1) (content p1) (Some e)
      | None => p1
      end
  end.

(** Lines 303-317, one round of the [for i in range(...)] loop. The dicts of
    [batch] are the dicts of [all_posts]: writing into the [k]-th post of
    the batch changes the post at position [i + k] of the list. The request
    for the post at position [j] is answered by [client j]. *)
Definition process_batch (batch_size : nat)
    (client : nat → string → http_outcome detail_page)
    (all_posts : list post) (i : nat) : list post :=
  let batch := take batch_size (drop i all_posts) in
  let tasks := imap (λ k p, fetch_post_detail (client (i + k)) (detail_url p)) batch in
  let detail_results := gather tasks in
  foldl (λ store kd, alter (record_detail kd.2) (i + kd.1) store)
    all_posts (zip (seq 0 (length batch)) detail_results).

(** Lines 301-317. [range] raises [ValueError] for a zero step: [None]. *)
Definition resolve_all (batch_size : nat)
    (client : nat → string → http_outcome detail_page)
    (all_posts : list post) : option (list post) :=
  if bool_decide (batch_size = 0) then None
  else Some (foldl (process_batch batch_size client) all_posts
               (py_range_step (length all_posts) batch_size)).

(** ** One crawl run *)

(** The process-wide state a run reads and writes: the global
    [latest_posts] and the files under [data/]. *)
Record state := mk_state {
  latest_posts : list post;
  disk : filesystem
}.

(** Everything outside the process during one run. *)
Record environment := mk_environment {
  listing_client : nat → string → http_outcome listing_page;
  detail_client : nat → string → http_outcome detail_page;
  disk_faults : faults;
  clock1 : datetime;
  clock2 : datetime
}.

(** main.py, lines 170-333. [None]: the pagination loop has not finished
    within [fuel] pages. *)
Definition scrape_ddm_news (fuel : nat) (env : environment) (st : state)
  : option state :=
  let current_posts := latest_posts st in
  match pagination_loop fuel (listing_client env) 0 (Some ENTRY_URL) [] with
  | None => None
  | Some ReturnEarly => Some (mk_state current_posts (disk st))
  | Some (LoopDone all_posts) =>
      if bool_decide (all_posts ≠ []) then
        match resolve_all 5 (detail_client env) all_posts with
        | None => Some (mk_state current_posts (disk st))
        | Some all_posts' =>
            let (ok, disk') :=
              update_posts (disk_faults env) (clock1 env) (clock2 env)
                all_posts' (disk st) in
            if ok then Some (mk_state all_posts' disk')
            else Some (mk_state current_posts disk')
        end
      else Some (mk_state current_posts (disk st))
  end.

(** ** The daily trigger *)

Definition MAXYEAR : nat := 9999.

Definition is_leap (y : nat) : bool :=
  ((y mod 4 =? 0) && (negb (y mod 100 =? 0) || (y mod 400 =? 0)))%nat.

Definition days_in_month (y m : nat) : nat :=
  match m with
  | 2 => if is_leap y then 29 else 28
  | 4 | 6 | 9 | 11 => 30
  | _ => 31
  end.

(** Days before January 1st of year [y]. *)
Definition days_before_year (y : nat) : Z :=
  (let p := Z.of_nat y - 1 in p * 365 + p / 4 - p / 100 + p / 400)%Z.

(** Days of year [y] before the first day of month [m]. *)
Definition days_before_month (y m : nat) : Z :=
  Z.of_nat (sum_list (days_in_month y <$> seq 1 (m - 1))).

(** [date.toordinal]: January 1st of year 1 is day 1. *)
Definition toordinal (d : datetime) : Z :=
  (days_before_year (year d) + days_before_month (year d) (month d)
     + Z.of_nat (day d))%Z.

(** Microseconds since the start of day 0 of the proleptic calendar: the
    scale on which [datetime.__sub__] measures a difference. *)
Definition to_microseconds (d : datetime) : Z :=
  ((((toordinal d * 24 + Z.of_nat (hour d)) * 60
       + Z.of_nat (minute d)) * 60 + Z.of_nat (second d)) * 1000000
     + Z.of_nat (microsecond d))%Z.

(** [datetime.replace(hour=h, minute=m, second=0, microsecond=0)];
    [ValueError] for a field out of range is [None]. *)
Definition replace_time (d : datetime) (h m : nat) : option datetime :=
  if ((h <? 24) && (m <? 60))%nat
  then Some (mk_datetime (year d) (month d) (day d) h m 0 0)
  else None.

(** [d + timedelta(days=1)]: the same time on the next calendar day;
    [OverflowError] past year [MAXYEAR] is [None]. *)
Definition add_one_day (d : datetime) : option datetime :=
  if (day d <? days_in_month (year d) (month d))%nat
  then Some (mk_datetime (year d) (month d) (S (day d))
               (hour d) (minute d) (second d) (microsecond d))
  else if (month d <? 12)%nat
  then Some (mk_datetime (year d) (S (month d)) 1
               (hour d) (minute d) (second d) (microsecond d))
  else if (year d <? MAXYEAR)%nat
  then Some (mk_datetime (S (year d)) 1 1
               (hour d) (minute d) (second d) (microsecond d))
  else None.

(** Comparison of two datetimes of one timezone: field by field, most
    significant first. *)
Definition datetime_fields (d : datetime) : list nat :=
  [year d; month d; day d; hour d; minute d; second d; microsecond d].

Fixpoint lex_compare (a b : list nat) : comparison :=
  match a, b with
  | [], [] => Eq
  | [], _ :: _ => Lt
  | _ :: _, [] => Gt
  | x :: a', y :: b' =>
      match Nat.compare x y with
      | Eq => lex_compare a' b'
      | c => c
      end
  end.

Definition datetime_ge (a b : datetime) : bool :=
  match lex_compare (datetime_fields a) (datetime_fields b) with
  | Lt => false
  | Eq | Gt => true
  end.

(** main.py, lines 343-346: the [next_run] of one round of
    [periodic_scrape], from the reading [now] of the clock in the
    configured timezone. *)
Definition next_run (now : datetime) (target_hour target_minute : nat)
  : option datetime :=
  match replace_time now target_hour target_minute with
  | None => None
  | Some next_run =>
      if datetime_ge now next_run then add_one_day next_run
      else Some next_run
  end.

(** Line 347, in microseconds. *)
Definition wait_microseconds (now next : datetime) : Z :=
  (to_microseconds next - to_microseconds now)%Z.

(** ** The read endpoint *)

(** [l[start:stop]] with Python's treatment of negative and out-of-range
    bounds. *)
Definition py_slice {A} (l : list A) (start stop : Z) : list A :=
  let n := Z.of_nat (length l) in
  let clamp (i : Z) := if (i <? 0)%Z then Z.max 0 (i + n) else Z.min i n in
  let s := clamp start in
  let e := clamp stop in
  take (Z.to_nat (e - s)) (drop (Z.to_nat s) l).

Record posts_response := mk_posts_response {
  r_posts : list post;
  r_total : Z;
  r_offset : option Z;
  r_limit : option Z;
  r_has_more : bool;
  r_last_updated : option string
}.

(** main.py, lines 355-411. [archive_stamp] is what lines 394-402 read off
    the newest file name of the archive directory ([None] when there is no
    archive file or its name does not parse). *)
Definition get_posts (latest_posts : list post) (archive_stamp : option string)
    (offset limit : option Z) : posts_response :=
  match latest_posts with
  | [] => mk_posts_response [] 0 offset limit false None
  | _ :: _ =>
      let total := Z.of_nat (length latest_posts) in
      let safe_offset := default 0%Z offset in
      let safe_limit := default 10%Z limit in
      let end_ := Z.min (safe_offset + safe_limit) total in
      let posts := py_slice latest_posts safe_offset end_ in
      let has_more := (end_ <? total)%Z in
      mk_posts_response posts total offset limit has_more archive_stamp
  end.

(** ** Stages of a publish call *)

(** The file system once [save_posts] has staged [new_posts]. *)
Definition staged_fs (new_posts : list post) (fs : filesystem) : filesystem :=
  <[POSTS_NEW_FILE := Dump new_posts]> fs.

(** The call gets past staging and [archive_current_posts] returns
    [False]. *)
Definition fails_at_archiving (ft : faults) (now1 now2 : datetime)
    (new_posts : list post) (fs : filesystem) : Prop :=
  save_fault ft = None
  ∧ (archive_current_posts (archive_move_fails ft) (archive_move_leaves ft)
       now1 now2 (staged_fs new_posts fs)).1 = false.

(** The call gets past staging and archiving and the final move raises. *)
Definition fails_at_committing (ft : faults) (now1 now2 : datetime)
    (new_posts : list post) (fs : filesystem) : Prop :=
  let a := archive_current_posts (archive_move_fails ft)
             (archive_move_leaves ft) now1 now2 (staged_fs new_posts fs) in
  save_fault ft = None
  ∧ a.1 = true
  ∧ raised (shutil_move (commit_move_fails ft) (commit_move_leaves ft)
              POSTS_NEW_FILE POSTS_FILE a.2) = true.

(** ** Sample data for the examples *)

Definition sample_post (n : nat) : post :=
  mk_post ("news " +:+ pretty n) ("https://www.ddm.org.tw/xmdoc/" +:+ pretty n)
    "2024-01-01" [] "" None None.

(** 2024-01-01 03:00:30 *)
Definition sample_now : datetime := mk_datetime 2024 1 1 3 0 30 0.

Definition staging_fails : faults :=
  mk_faults (Some DumpFails) false false false LeavesNothing LeavesNothing.
Definition archiving_fails : faults :=
  mk_faults None true false false LeavesNothing LeavesNothing.
Definition committing_fails : faults :=
  mk_faults None false true false LeavesNothing LeavesNothing.

(** The final move raises on the way through its copy fallback: with the
    current file written in part, or written in full. *)
Definition committing_tears : faults :=
  mk_faults None false true false LeavesNothing LeavesTornCopy.
Definition committing_copies : faults :=
  mk_faults None false true false LeavesNothing LeavesFullCopy.

(** A disk holding a published dataset and nothing else. *)
Definition disk_published : filesystem :=
  {[ POSTS_FILE := Dump [sample_post 0] ]}.

(** A disk on which today's archive name is taken. *)
Definition disk_archived_today : filesystem :=
  <[ "data/archive/posts_20240101.json" := Dump [sample_post 0] ]>
    {[ POSTS_FILE := Dump [sample_post 1] ]}.

(** A disk on which both of today's archive names for 03:00 are taken. *)
Definition disk_archived_this_minute : filesystem :=
  <[ "data/archive/posts_20240101_0300.json" := Dump [sample_post 1] ]>
    (<[ "data/archive/posts_20240101.json" := Dump [sample_post 0] ]>
       {[ POSTS_FILE := Dump [sample_post 2] ]}).

(** ** Outcomes of a detail request *)

(** The fetch failed: an exception, or a status other than 200. *)
Definition fetch_failed {A} (o : http_outcome A) : Prop :=
  match o with
  | Response status_code _ => status_code ≠ 200%Z
  | TimeoutException | RequestError _ | OtherException _ => True
  end.

Definition sample_url : string := "https://www.ddm.org.tw/xmdoc/1".

(** ** The detail step, one post at a time *)

(** The post at position [j] resolved on its own: its own request, its own
    result written into it. *)
Definition resolve_one (client : nat → string → http_outcome detail_page)
    (j : nat) (p : post) : post :=
  record_detail (inr (fetch_post_detail (client j) (detail_url p))) p.

Definition resolve_each (client : nat → string → http_outcome detail_page)
    (posts : list post) : list post :=
  imap (resolve_one client) posts.

(** Every odd request fails with a 404, request 3 times out. *)
Definition flaky_detail_client (j : nat) (url : string)
  : http_outcome detail_page :=
  if Nat.even j then Response 200 (Some ["first"; ""; "second"])
  else if (j =? 3)%nat then TimeoutException
  else Response 404 None.

(** ** Sample runs *)

(** Three form rows, then one news item. *)
Definition form_row : item := mk_item None None [] None.

Definition news_item (n : nat) : item :=
  mk_item (Some ("news " +:+ pretty n, "/xmdoc/" +:+ pretty n))
    (Some "2024-01-01") ["news"; ""] (Some "summary").

Definition first_page : listing_page :=
  mk_listing_page [form_row; form_row; form_row; news_item 7] (NextPage 2).

Definition empty_page : listing_page := mk_listing_page [] NoNextLink.

(** The first listing page arrives, the request for the second times out. *)
Definition second_page_times_out (req : nat) (url : string)
  : http_outcome listing_page :=
  match req with
  | 0 => Response 200 first_page
  | _ => TimeoutException
  end.

(** The first listing page arrives, the second answers with a 503. *)
Definition second_page_unavailable (req : nat) (url : string)
  : http_outcome listing_page :=
  match req with
  | 0 => Response 200 first_page
  | _ => Response 503 empty_page
  end.

Definition detail_ok (j : nat) (url : string) : http_outcome detail_page :=
  Response 200 (Some ["full text"]).

Definition sample_state : state := mk_state [sample_post 0] disk_published.

Definition run_with (listing : nat → string → http_outcome listing_page)
  : environment :=
  mk_environment listing detail_ok no_faults sample_now sample_now.

(** The post the sample run builds from [news_item 7]. *)
Definition news_post_7 : post :=
  mk_post "news 7" "https://www.ddm.org.tw/xmdoc/7" "2024-01-01" ["news"]
    "summary" (Some "full text") None.

(** ** Reading a datetime *)

(** The fields of [d] are those of a [datetime] object. *)
Definition valid_datetime (d : datetime) : bool :=
  ((1 <=? year d) && (year d <=? MAXYEAR)
   && (1 <=? month d) && (month d <=? 12)
   && (1 <=? day d) && (day d <=? days_in_month (year d) (month d))
   && (hour d <? 24) && (minute d <? 60) && (second d <? 60))%nat
  && (Z.of_nat (microsecond d) <? 1000000)%Z.

(** Microseconds since midnight. *)
Definition time_of_day (d : datetime) : Z :=
  (((Z.of_nat (hour d) * 60 + Z.of_nat (minute d)) * 60
      + Z.of_nat (second d)) * 1000000 + Z.of_nat (microsecond d))%Z.

(** The target [h:m:00] on the day of [d]. *)
Definition at_time (d : datetime) (h m : nat) : datetime :=
  mk_datetime (year d) (month d) (day d) h m 0 0.

(** The last date a [datetime] can hold. *)
Definition is_last_day (d : datetime) : bool :=
  ((year d =? MAXYEAR) && (month d =? 12) && (day d =? 31))%nat.

(** 2024-02-28 03:05:00 *)
Definition five_past_three : datetime := mk_datetime 2024 2 28 3 5 0 0.

Definition microseconds_per_day : Z := 86400000000.

(** ** Reading a zero-padded field back *)

(** The number a string of decimal digits stands for, as [int] reads it. *)
Definition digit_value (c : ascii) : nat := nat_of_ascii c - 48.

Fixpoint decimal_value_go (acc : nat) (s : string) : nat :=
  match s with
  | EmptyString => acc
  | String c s' => decimal_value_go (acc * 10 + digit_value c) s'
  end.

Definition decimal_value (s : string) : nat := decimal_value_go 0 s.

(** ** Listings served page by page *)

(** Starting with request [req] for [url], the site answers 200 with the
    pages of [pages], one after the other, each request going to the URL
    the page before points to. *)
Fixpoint serves (client : nat → string → http_outcome listing_page)
    (req : nat) (url : option string) (pages : list listing_page) : Prop :=
  match pages with
  | [] => True
  | page :: rest =>
      ∃ u, url = Some u
           ∧ client req u = Response 200 page
           ∧ serves client (S req) (next_url page) rest
  end.

(** Where the last of [pages] points to ([url] itself for no page). *)
Fixpoint url_after (url : option string) (pages : list listing_page)
  : option string :=
  match pages with
  | [] => url
  | page :: rest => url_after (next_url page) rest
  end.

(** ** Posts before and after the detail step *)

(** A post as the listing step builds it. *)
Definition unresolved (p : post) : Prop := content p = None ∧ error p = None.

(** A post with exactly one of [content] and [error]. *)
Definition resolved_once (p : post) : Prop :=
  (is_Some (content p) ∧ error p = None)
  ∨ (content p = None ∧ is_Some (error p)).

(** Two listing pages, the second one the last. *)
Definition last_page : listing_page :=
  mk_listing_page [form_row; form_row; form_row; news_item 8; news_item 9]
    NoNextLink.

Definition two_pages (req : nat) (url : string) : http_outcome listing_page :=
  match req with
  | 0 => Response 200 first_page
  | _ => Response 200 last_page
  end.

(** ** Rounds of the trigger *)





(** ** The detail step in the words of the specification *)

(** The specification asks for the [i]-th result to be the [i]-th entry
    "augmented with content or error": a fetch that fails (a timeout, a
    request error, any other exception, a status other than 200) is
    recorded in [error], a fetch that succeeds puts what it extracted in
    [content], the empty string when there is nothing to extract. These
    three definitions say so directly from the outcome of the request,
    without the dict [fetch_post_detail] returns and without
    [record_detail]. *)
Definition failure_message (url : string) (o : http_outcome detail_page)
  : option string :=
  match o with
  | TimeoutException => Some ("Timeout while fetching " +:+ url)
  | RequestError e => Some ("Request error for " +:+ url +:+ ": " +:+ e)
  | OtherException e =>
      Some ("Unexpected error fetching " +:+ url +:+ ": " +:+ e)
  | Response status_code _ =>
      if bool_decide (status_code = 200%Z) then None
      else Some ("HTTP " +:+ pretty status_code)
  end.

Definition fetched_text (o : http_outcome detail_page) : option string :=
  match o with
  | Response status_code body =>
      if bool_decide (status_code = 200%Z)
      then Some (match body with
                 | Some paragraphs => join_paragraphs paragraphs
                 | None => ""
                 end)
      else None
  | TimeoutException | RequestError _ | OtherException _ => None
  end.

Definition augmented (o : http_outcome detail_page) (p : post) : post :=
  mk_post (title p) (detail_url p) (date p) (tags p) (description p)
    (match fetched_text o with
     | Some text => Some text
     | None => content p
     end)
    (match failure_message (detail_url p) o with
     | Some message => Some message
     | None => error p
     end).

(** ** Clock readings with their UTC offset *)

(** An aware [datetime] as [datetime.now(tz)] returns it for a pytz zone:
    the fields of the wall clock, and the UTC offset, in seconds, of the
    fixed-offset [tzinfo] attached to them. [replace] and [+ timedelta]
    work on the fields and keep the [tzinfo], so the offset of a computed
    datetime is the offset of the reading it was computed from. *)
Record aware := mk_aware {
  fields : datetime;
  utcoffset : Z
}.

(** The instant an aware datetime denotes: microseconds of UTC, on the
    scale of [to_microseconds]. *)
Definition instant (a : aware) : Z :=
  (to_microseconds (fields a) - utcoffset a * 1000000)%Z.

(** A timezone: the UTC offset, in seconds, in force at each instant. *)
Definition timezone : Type := Z → Z.

(** [a] is what the clock of [tz] shows at the instant [a] denotes, that
    is what [datetime.now(tz)] returns then: a valid wall-clock time that
    carries the offset in force at that instant. *)
Definition reading_of (tz : timezone) (a : aware) : Prop :=
  valid_datetime (fields a) = true ∧ utcoffset a = tz (instant a).

(** main.py, lines 343-346, on the aware value: the fields are computed as
    [next_run] says and the [tzinfo] of [now] is kept. *)
Definition next_run_aware (now : aware) (target_hour target_minute : nat)
  : option aware :=
  (λ next, mk_aware next (utcoffset now))
    <$> next_run (fields now) target_hour target_minute.

(** The instant of a UTC wall-clock minute. *)
Definition utc_minute (y mo d h mi : nat) : Z :=
  to_microseconds (mk_datetime y mo d h mi 0 0).

(** The rules of America/Los_Angeles, the default zone of
    [periodic_scrape], for the year 2024: UTC-8 until 2024-03-10 10:00 UTC,
    UTC-7 until 2024-11-03 09:00 UTC, UTC-8 after. *)
Definition los_angeles_2024 : timezone :=
  λ t, if (t <? utc_minute 2024 3 10 10 0)%Z then (-28800)%Z
       else if (t <? utc_minute 2024 11 3 9 0)%Z then (-25200)%Z
       else (-28800)%Z.

(** 03:05 on 2024-03-09 in Los Angeles, the day before the clocks go
    forward, and 03:05 on 2024-02-28. *)
Definition before_dst : aware :=
  mk_aware (mk_datetime 2024 3 9 3 5 0 0) (-28800).

Definition plain_day : aware := mk_aware five_past_three (-28800).

(** * Properties *)

(** ** Paths *)

Lemma POSTS_FILE_ne_new : POSTS_FILE ≠ POSTS_NEW_FILE.
Proof. discriminate. Qed.

Lemma day_archive_file_ne_current now1 :
  day_archive_file now1 ≠ POSTS_FILE ∧ day_archive_file now1 ≠ POSTS_NEW_FILE.
Proof. split; discriminate. Qed.

Lemma minute_archive_file_ne_current now2 :
  minute_archive_file now2 ≠ POSTS_FILE
  ∧ minute_archive_file now2 ≠ POSTS_NEW_FILE.
Proof. split; discriminate. Qed.

Lemma archive_file_ne_current now1 now2 (fs : filesystem) :
  archive_file now1 now2 fs ≠ POSTS_FILE
  ∧ archive_file now1 now2 fs ≠ POSTS_NEW_FILE.
Proof.
  unfold archive_file. destruct (exists_ _ fs).
  - apply minute_archive_file_ne_current.
  - apply day_archive_file_ne_current.
Qed.

Lemma exists_true p (fs : filesystem) :
  exists_ p fs = true ↔ is_Some (fs !! p).
Proof. unfold exists_. apply bool_decide_eq_true. Qed.

Lemma exists_false p (fs : filesystem) :
  exists_ p fs = false ↔ fs !! p = None.
Proof.
  unfold exists_. rewrite bool_decide_eq_false, eq_None_not_Some. done.
Qed.

Lemma exists_insert_ne p q c (fs : filesystem) :
  p ≠ q → exists_ q (<[p := c]> fs) = exists_ q fs.
Proof. intros Hne. unfold exists_. by rewrite lookup_insert_ne. Qed.

(** Staging does not change the name the archive step picks. *)
Lemma archive_file_staged now1 now2 new_posts (fs : filesystem) :
  archive_file now1 now2 (staged_fs new_posts fs) = archive_file now1 now2 fs.
Proof.
  unfold archive_file, staged_fs. rewrite exists_insert_ne; [done |].
  intros Heq. by destruct (day_archive_file_ne_current now1) as [_ []].
Qed.

(** ** The archive step *)

Lemma left_behind_lookup_ne residue c dst p (fs : filesystem) :
  p ≠ dst → left_behind residue c dst fs !! p = fs !! p.
Proof.
  intros Hp. destruct residue; simpl; [done | |];
    by rewrite lookup_insert_ne.
Qed.

Lemma archive_current_posts_absent
    move_raises residue now1 now2 (fs : filesystem) :
  fs !! POSTS_FILE = None →
  archive_current_posts move_raises residue now1 now2 fs = (true, fs).
Proof.
  intros Hnone. unfold archive_current_posts.
  apply exists_false in Hnone. by rewrite Hnone.
Qed.

Lemma archive_current_posts_moved residue now1 now2 c (fs : filesystem) :
  fs !! POSTS_FILE = Some c →
  archive_current_posts false residue now1 now2 fs
  = (true, <[archive_file now1 now2 fs := c]> (delete POSTS_FILE fs)).
Proof.
  intros Hsome. unfold archive_current_posts, shutil_move.
  assert (exists_ POSTS_FILE fs = true) as ->
    by (apply exists_true; eauto).
  simpl. by rewrite Hsome.
Qed.

Lemma archive_current_posts_raised residue now1 now2 c (fs : filesystem) :
  fs !! POSTS_FILE = Some c →
  archive_current_posts true residue now1 now2 fs
  = (false, left_behind residue c (archive_file now1 now2 fs) fs).
Proof.
  intros Hsome. unfold archive_current_posts, shutil_move.
  assert (exists_ POSTS_FILE fs = true) as ->
    by (apply exists_true; eauto).
  simpl. by rewrite Hsome.
Qed.

(** The archive step fails only by a raising move of an existing current
    file, which stays where it is. *)
Lemma archive_current_posts_false
    move_raises residue now1 now2 (fs : filesystem) :
  (archive_current_posts move_raises residue now1 now2 fs).1 = false →
  ∃ c, fs !! POSTS_FILE = Some c
       ∧ move_raises = true
       ∧ archive_current_posts move_raises residue now1 now2 fs
         = (false, left_behind residue c (archive_file now1 now2 fs) fs).
Proof.
  destruct (fs !! POSTS_FILE) as [c |] eqn:Hcur.
  - destruct move_raises.
    + intros _. exists c. by rewrite (archive_current_posts_raised _ _ _ c).
    + by rewrite (archive_current_posts_moved _ _ _ c).
  - by rewrite archive_current_posts_absent.
Qed.

(** C7 (amended). When no current dataset file exists, archiving is a no-op
    that reports success. When one exists and the move does not raise, the
    file leaves the current location and arrives in the archive directory
    under the date-stamped name [posts_YYYYMMDD.json], or, when a file of
    that name exists, under the refined name [posts_YYYYMMDD_HHMM.json].
    Every other existing file keeps its content provided the date-stamped
    name or the refined name is still free. *)
Theorem archive_current_posts_no_overwrite
    move_raises residue now1 now2 (fs : filesystem) :
  let r := archive_current_posts move_raises residue now1 now2 fs in
  (fs !! POSTS_FILE = None → r = (true, fs))
  ∧ (∀ c, fs !! POSTS_FILE = Some c → move_raises = false →
       r.1 = true
       ∧ r.2 !! POSTS_FILE = None
       ∧ r.2 !! archive_file now1 now2 fs = Some c
       ∧ (fs !! day_archive_file now1 = None →
            archive_file now1 now2 fs = day_archive_file now1)
       ∧ (is_Some (fs !! day_archive_file now1) →
            archive_file now1 now2 fs = minute_archive_file now2))
  ∧ (∀ p c', p ≠ POSTS_FILE → fs !! p = Some c' →
       fs !! day_archive_file now1 = None
       ∨ fs !! minute_archive_file now2 = None →
       r.2 !! p = Some c').
Proof.
  intros r. subst r. split; [| split].
  - apply archive_current_posts_absent.
  - intros c Hcur ->. rewrite (archive_current_posts_moved _ _ _ c) by done.
    simpl. destruct (archive_file_ne_current now1 now2 fs) as [Hne _].
    repeat split.
    + rewrite lookup_insert_ne by done. apply lookup_delete_eq.
    + apply lookup_insert_eq.
    + intros Hfree. unfold archive_file.
      apply exists_false in Hfree. by rewrite Hfree.
    + intros Htaken. unfold archive_file.
      apply exists_true in Htaken. by rewrite Htaken.
  - intros p c' Hp Hold Hfree.
    destruct (fs !! POSTS_FILE) as [c |] eqn:Hcur.
    2: { by rewrite archive_current_posts_absent. }
    assert (Hdst : p ≠ archive_file now1 now2 fs).
    { intros ->. unfold archive_file in Hold.
      destruct (exists_ (day_archive_file now1) fs) eqn:Hday.
      - apply exists_true in Hday. destruct Hfree as [Hfree | Hfree].
        + rewrite Hfree in Hday. by destruct Hday.
        + congruence.
      - apply exists_false in Hday. congruence. }
    destruct move_raises.
    { rewrite (archive_current_posts_raised _ _ _ c) by done. simpl.
      by rewrite left_behind_lookup_ne. }
    rewrite (archive_current_posts_moved _ _ _ c) by done. simpl.
    rewrite lookup_insert_ne by done. by rewrite lookup_delete_ne.
Qed.

(** C7, counterexample: a third archiving within one minute of one day
    replaces the archive file written by the second. *)
Lemma archive_current_posts_overwrites_same_minute :
  let r := archive_current_posts false LeavesNothing sample_now sample_now
             disk_archived_this_minute in
  disk_archived_this_minute !! POSTS_FILE = Some (Dump [sample_post 2])
  ∧ disk_archived_this_minute !! "data/archive/posts_20240101_0300.json"
    = Some (Dump [sample_post 1])
  ∧ r.1 = true
  ∧ r.2 !! "data/archive/posts_20240101_0300.json"
    = Some (Dump [sample_post 2])
  ∧ Dump [sample_post 1] ≠ Dump [sample_post 2].
Proof. vm_compute. repeat split; discriminate. Qed.

(** C7, at a disk where today's date-stamped name is taken: the current
    file goes to the refined name and the older archive file stays. *)
Lemma archive_current_posts_no_overwrite_witness :
  let r := archive_current_posts false LeavesNothing sample_now sample_now
             disk_archived_today in
  r.1 = true
  ∧ r.2 !! POSTS_FILE = None
  ∧ r.2 !! minute_archive_file sample_now = Some (Dump [sample_post 1])
  ∧ r.2 !! day_archive_file sample_now = Some (Dump [sample_post 0]).
Proof.
  destruct (archive_current_posts_no_overwrite false LeavesNothing
              sample_now sample_now disk_archived_today)
    as (_ & Hmoved & Hkept).
  destruct (Hmoved (Dump [sample_post 1]))
    as (Hok & Hgone & Hthere & _ & Hname); [reflexivity | reflexivity |].
  rewrite Hname in Hthere by (vm_compute; eauto).
  split; [exact Hok |]. split; [exact Hgone |]. split; [exact Hthere |].
  apply Hkept; [discriminate | reflexivity | right; reflexivity].
Defined.

(** ** The publisher *)

Lemma update_posts_staged ft now1 now2 new_posts (fs : filesystem) :
  save_fault ft = None →
  update_posts ft now1 now2 new_posts fs
  = let (archived, fs2) :=
      archive_current_posts (archive_move_fails ft) (archive_move_leaves ft)
        now1 now2 (staged_fs new_posts fs) in
    if negb archived then (false, fs2)
    else match shutil_move (commit_move_fails ft) (commit_move_leaves ft)
                 POSTS_NEW_FILE POSTS_FILE fs2 with
         | inl fs3 => (true, fs3)
         | inr fs3 => (false, cleanup_staged (unlink_fails ft) fs3)
         end.
Proof. intros Hsave. unfold update_posts, save_posts. by rewrite Hsave. Qed.

(** C3. If staging fails, the publish call returns failure, the current
    posts file holds what it held before the call, and so does every file
    other than the temporary one. *)
Theorem update_posts_staging_failure
    ft now1 now2 new_posts (fs : filesystem) :
  (save_posts (save_fault ft) new_posts POSTS_NEW_FILE fs).1 = false →
  let r := update_posts ft now1 now2 new_posts fs in
  r.1 = false
  ∧ r.2 !! POSTS_FILE = fs !! POSTS_FILE
  ∧ ∀ p, p ≠ POSTS_NEW_FILE → r.2 !! p = fs !! p.
Proof.
  unfold update_posts, save_posts.
  destruct (save_fault ft) as [[] |]; simpl; intros Hfail; try done.
  split; [done |]. split.
  - apply lookup_insert_ne. intros Heq. by apply POSTS_FILE_ne_new.
  - intros p Hp. by apply lookup_insert_ne.
Qed.

(** C3, at a call whose [json.dump] raises part-way. *)
Lemma update_posts_staging_failure_witness :
  let r := update_posts staging_fails sample_now sample_now
             [sample_post 1] disk_published in
  r.1 = false
  ∧ r.2 !! POSTS_FILE = disk_published !! POSTS_FILE
  ∧ ∀ p, p ≠ POSTS_NEW_FILE → r.2 !! p = disk_published !! p.
Proof.
  apply (update_posts_staging_failure staging_fails sample_now sample_now
           [sample_post 1] disk_published).
  reflexivity.
Defined.

Lemma cleanup_staged_lookup_ne unlink_raises p (fs : filesystem) :
  p ≠ POSTS_NEW_FILE → cleanup_staged unlink_raises fs !! p = fs !! p.
Proof.
  intros Hp. unfold cleanup_staged.
  destruct (exists_ _ fs), unlink_raises; try done.
  by rewrite lookup_delete_ne.
Qed.

Lemma cleanup_staged_removed (fs : filesystem) :
  cleanup_staged false fs !! POSTS_NEW_FILE = None.
Proof.
  unfold cleanup_staged. destruct (exists_ _ fs) eqn:Hex.
  - apply lookup_delete_eq.
  - by apply exists_false.
Qed.

(** C4, the failing calls, each on a disk that holds a published dataset.
    When the final move raises with nothing written, the call ends with no
    current posts file at all: the previous dataset has gone to the
    archive and the new one is removed with the staged file. When the
    final move raises part-way through its copy, the current posts file is
    left torn. When the archive move raises, line 93 returns before the
    clean-up of lines 100-105 and the staged file stays. *)
Theorem update_posts_late_failure_defects :
  (let r := update_posts committing_fails sample_now sample_now
              [sample_post 1] disk_published in
   fails_at_committing committing_fails sample_now sample_now
     [sample_post 1] disk_published
   ∧ disk_published !! POSTS_FILE = Some (Dump [sample_post 0])
   ∧ r.1 = false
   ∧ r.2 !! POSTS_FILE = None
   ∧ r.2 !! POSTS_NEW_FILE = None
   ∧ r.2 !! day_archive_file sample_now = Some (Dump [sample_post 0]))
  ∧ (let r := update_posts committing_tears sample_now sample_now
                [sample_post 1] disk_published in
     fails_at_committing committing_tears sample_now sample_now
       [sample_post 1] disk_published
     ∧ r.1 = false
     ∧ r.2 !! POSTS_FILE = Some (Truncated [sample_post 1]))
  ∧ (let r := update_posts archiving_fails sample_now sample_now
                [sample_post 1] disk_published in
     fails_at_archiving archiving_fails sample_now sample_now
       [sample_post 1] disk_published
     ∧ r.1 = false
     ∧ r.2 !! POSTS_FILE = Some (Dump [sample_post 0])
     ∧ r.2 !! POSTS_NEW_FILE = Some (Dump [sample_post 1])).
Proof. vm_compute. done. Qed.

(** ** The detail resolver *)

Lemma join_paragraphs_no_text (paragraphs : list string) :
  Forall (λ t, t = "") paragraphs → join_paragraphs paragraphs = "".
Proof.
  intros Hall. unfold join_paragraphs.
  assert (filter (λ t : string, t ≠ "") paragraphs = []) as ->; [| done].
  induction Hall as [| t ts Ht _ IH]; [done |].
  rewrite filter_cons. by destruct (decide (t ≠ "")).
Qed.

(** C5 (amended). [fetch_post_detail] is total: whatever the request does,
    a dict for the requested URL comes back. A timeout, a request error,
    any other exception or a status other than 200 sets [error] and leaves
    [content] unset. A 200 response sets [content] and no [error]; when the
    content region is missing, or present without any text, [content] is
    the empty string. *)
Theorem fetch_post_detail_captures client url :
  let d := fetch_post_detail client url in
  d_url d = url
  ∧ (fetch_failed (client url) → is_Some (d_error d) ∧ d_content d = None)
  ∧ (¬ fetch_failed (client url) → d_error d = None ∧ is_Some (d_content d))
  ∧ (client url = Response 200 None →
       d_content d = Some "" ∧ d_error d = None)
  ∧ (∀ paragraphs, client url = Response 200 (Some paragraphs) →
       Forall (λ t, t = "") paragraphs →
       d_content d = Some "" ∧ d_error d = None).
Proof.
  unfold fetch_post_detail.
  destruct (client url) as [| msg | msg | status_code body] eqn:Hout; simpl.
  1-3: (split; [done |]; split; [intros _; split; eauto |];
        split; [intros Hok; by destruct Hok |];
        split; [discriminate | intros ?; discriminate]).
  destruct (decide (status_code = 200%Z)) as [-> | Hst].
  - rewrite bool_decide_eq_false_2 by (intros Hne; by apply Hne).
    split.
    { destruct body; [case_bool_decide |]; done. }
    split; [intros Hne; by destruct Hne |].
    split.
    { intros _. destruct body; [case_bool_decide |]; simpl; eauto. }
    split.
    { intros [= ->]. done. }
    intros paragraphs [= ->] Hall.
    rewrite (join_paragraphs_no_text paragraphs Hall). done.
  - rewrite bool_decide_eq_true_2 by done. simpl.
    split; [done |]. split; [intros _; split; eauto |].
    split; [intros Hok; by destruct Hok |].
    split; [| intros ?]; intros [= ? ?]; done.
Qed.

(** C5, counterexample: a 200 response without the [.district] region
    comes back with an empty [content] and no [error]; and a timeout comes
    back without any [content], not with an empty one. *)
Lemma fetch_post_detail_missing_region_no_error :
  d_error (fetch_post_detail (λ _, Response 200 None) sample_url) = None
  ∧ d_content (fetch_post_detail (λ _, Response 200 None) sample_url)
    = Some ""
  ∧ d_content (fetch_post_detail (λ _, TimeoutException) sample_url) = None.
Proof. done. Qed.

(** C5, at a request that times out. *)
Lemma fetch_post_detail_captures_witness :
  let d := fetch_post_detail (λ _, TimeoutException) sample_url in
  is_Some (d_error d) ∧ d_content d = None.
Proof.
  destruct (fetch_post_detail_captures (λ _, TimeoutException) sample_url)
    as (_ & Hfailed & _).
  apply Hfailed. exact I.
Defined.

(** ** The batched detail step *)

(** Writing results [rs] into the consecutive posts [mid], one position
    after the other, rewrites exactly that segment. *)
Lemma foldl_alter_segment {A B} (g : B → A → A) (i : nat) (mid : list A) :
  ∀ (s : nat) (pre suf : list A) (rs : list B),
    length pre = i + s →
    length rs = length mid →
    foldl (λ store kd, alter (g kd.2) (i + kd.1) store)
      (pre ++ mid ++ suf) (zip (seq s (length mid)) rs)
    = pre ++ zip_with g rs mid ++ suf.
Proof.
  induction mid as [| m mid IH]; intros s pre suf rs Hpre Hrs.
  - by destruct rs.
  - destruct rs as [| r rs]; [done |]. simpl in Hrs. simpl.
    rewrite alter_app_r_alt by lia.
    replace (i + s - length pre) with 0 by lia. simpl.
    rewrite (cons_middle (g r m)), (assoc (++) pre).
    rewrite IH; [| rewrite length_app; simpl; lia | lia].
    by rewrite <- (assoc (++) pre).
Qed.

Lemma zip_with_gather_imap (batch : list post) :
  ∀ client : nat → string → http_outcome detail_page,
    zip_with record_detail
      (gather (imap (λ k p, fetch_post_detail (client k) (detail_url p)) batch))
      batch
    = imap (resolve_one client) batch.
Proof.
  induction batch as [| p batch IH]; intros client; [done |].
  simpl. f_equal. apply (IH (λ k, client (S k))).
Qed.

(** One round of the batch loop resolves the next [batch_size] posts and
    nothing else. *)
Lemma process_batch_resolved batch_size client (posts : list post) i :
  (i ≤ length posts)%nat →
  process_batch batch_size client
    (resolve_each client (take i posts) ++ drop i posts) i
  = resolve_each client (take (i + batch_size) posts)
    ++ drop (i + batch_size) posts.
Proof.
  intros Hi. unfold process_batch, resolve_each.
  assert (Hpre : length (imap (resolve_one client) (take i posts)) = i).
  { rewrite length_imap, length_take. lia. }
  rewrite (drop_app_length' _ _ i) by done.
  set (batch := take batch_size (drop i posts)).
  rewrite <- (take_drop batch_size (drop i posts)) at 1. fold batch.
  rewrite foldl_alter_segment;
    [| lia | unfold gather; by rewrite length_fmap, length_imap].
  rewrite (zip_with_gather_imap batch (λ k, client (i + k))).
  rewrite drop_drop, <- (take_take_drop posts i batch_size), imap_app.
  fold batch. rewrite length_take, Nat.min_l by done.
  by rewrite (assoc (++)).
Qed.

Lemma foldl_process_batch batch_size client (posts : list post) n :
  (n * batch_size < length posts + batch_size)%nat →
  foldl (process_batch batch_size client) posts
    ((λ k, k * batch_size) <$> seq 0 n)
  = resolve_each client (take (n * batch_size) posts)
    ++ drop (n * batch_size) posts.
Proof.
  induction n as [| n IH]; intros Hn; [done |].
  rewrite seq_S, fmap_app, foldl_app. simpl.
  rewrite IH by lia.
  rewrite process_batch_resolved by lia.
  by replace (n * batch_size + batch_size) with (batch_size + n * batch_size)
    by lia.
Qed.

(** The batched loop computes what resolving each post on its own gives. *)
Lemma resolve_all_each batch_size client (posts : list post) :
  (1 ≤ batch_size)%nat →
  resolve_all batch_size client posts = Some (resolve_each client posts).
Proof.
  intros Hbs. unfold resolve_all, py_range_step.
  rewrite bool_decide_eq_false_2 by lia. f_equal.
  set (a := length posts + batch_size - 1).
  pose proof (Nat.div_mod_eq a batch_size) as Hdiv.
  pose proof (Nat.mod_upper_bound a batch_size ltac:(lia)) as Hmod.
  set (n := a `div` batch_size) in *.
  rewrite foldl_process_batch by (subst a; nia).
  rewrite take_ge, drop_ge by (subst a; nia).
  apply app_nil_r.
Qed.

Lemma record_detail_keeps d p :
  title (record_detail d p) = title p
  ∧ detail_url (record_detail d p) = detail_url p
  ∧ date (record_detail d p) = date p
  ∧ tags (record_detail d p) = tags p
  ∧ description (record_detail d p) = description p.
Proof.
  destruct d as [exc | [u [c |] [e |]]]; done.
Qed.

Lemma resolve_one_augmented client j p :
  is_Some (content (resolve_one client j p))
  ∨ is_Some (error (resolve_one client j p)).
Proof.
  unfold resolve_one, fetch_post_detail.
  destruct (client j (detail_url p)) as [| msg | msg | status_code body];
    simpl; eauto.
  case_bool_decide; simpl; eauto.
  destruct body as [paragraphs |]; [case_bool_decide |]; simpl; eauto.
Qed.

(** The code's way of writing a detail result into a post agrees with the
    specification's. *)
Lemma resolve_one_augmented_eq client j p :
  resolve_one client j p = augmented (client j (detail_url p)) p.
Proof.
  unfold resolve_one, augmented, fetch_post_detail, failure_message,
    fetched_text.
  destruct (client j (detail_url p)) as [| msg | msg | status_code body];
    simpl; try done.
  destruct (decide (status_code = 200%Z)) as [-> | Hst].
  - rewrite bool_decide_eq_false_2 by (intros Hne; by apply Hne).
    rewrite bool_decide_eq_true_2 by done.
    destruct body as [paragraphs |]; [| done].
    case_bool_decide as Hempty; simpl; [by rewrite Hempty | done].
  - rewrite bool_decide_eq_true_2 by done.
    by rewrite bool_decide_eq_false_2 by done.
Qed.

(** Exactly one of the two is recorded, according to the outcome. *)
Lemma failure_or_text url (o : http_outcome detail_page) :
  (fetch_failed o → is_Some (failure_message url o) ∧ fetched_text o = None)
  ∧ (¬ fetch_failed o →
       failure_message url o = None ∧ is_Some (fetched_text o)).
Proof.
  destruct o as [| msg | msg | status_code body]; simpl.
  1-3: split; [eauto | intros Hok; by destruct Hok].
  case_bool_decide as Hst; split; intros Hf; eauto; by destruct Hf.
Qed.

(** C2. For every list of entries and every batch size of at least one, the
    batched detail step returns a list of the same length whose [i]-th post
    is the [i]-th entry augmented by the outcome of its own request and of
    no other: title, detail URL, date, tags and description are those of
    the entry; when request [i] fails, [error] is the message of that
    failure and [content] is left as the entry had it; when it succeeds,
    [content] is the text it fetched and [error] is left as the entry had
    it. So [content] or [error] is set in every result, whichever requests
    fail. *)
Theorem resolve_all_pointwise batch_size client (posts : list post) :
  (1 ≤ batch_size)%nat →
  ∃ out,
    resolve_all batch_size client posts = Some out
    ∧ length out = length posts
    ∧ ∀ i p, posts !! i = Some p →
        ∃ q, out !! i = Some q
          ∧ q = resolve_one client i p
          ∧ title q = title p
          ∧ detail_url q = detail_url p
          ∧ date q = date p
          ∧ tags q = tags p
          ∧ description q = description p
          ∧ (is_Some (content q) ∨ is_Some (error q))
          ∧ q = augmented (client i (detail_url p)) p
          ∧ (fetch_failed (client i (detail_url p)) →
               error q = failure_message (detail_url p)
                           (client i (detail_url p))
               ∧ is_Some (error q)
               ∧ content q = content p)
          ∧ (¬ fetch_failed (client i (detail_url p)) →
               content q = fetched_text (client i (detail_url p))
               ∧ is_Some (content q)
               ∧ error q = error p).
Proof.
  intros Hbs. exists (resolve_each client posts).
  split; [by apply resolve_all_each |].
  split; [apply length_imap |].
  intros i p Hp. exists (resolve_one client i p).
  split; [unfold resolve_each; by rewrite list_lookup_imap, Hp |].
  split; [done |].
  destruct (record_detail_keeps
              (inr (fetch_post_detail (client i) (detail_url p))) p)
    as (? & ? & ? & ? & ?).
  unfold resolve_one at 1 2 3 4 5. repeat (split; [done |]).
  split; [apply resolve_one_augmented |].
  rewrite resolve_one_augmented_eq. split; [done |].
  destruct (failure_or_text (detail_url p) (client i (detail_url p)))
    as [Hfailed Hok].
  unfold augmented. simpl. split.
  - intros Hf. destruct (Hfailed Hf) as [[message Hm] Ht].
    rewrite Hm, Ht. eauto.
  - intros Hf. destruct (Hok Hf) as [Hm [text Ht]].
    rewrite Hm, Ht. eauto.
Qed.

(** C2, at five posts in batches of two, with three failing requests. *)
Lemma resolve_all_pointwise_witness :
  ∃ out,
    resolve_all 2 flaky_detail_client (sample_post <$> seq 0 5) = Some out
    ∧ length out = length (sample_post <$> seq 0 5)
    ∧ ∀ i p, (sample_post <$> seq 0 5) !! i = Some p →
        ∃ q, out !! i = Some q
          ∧ q = resolve_one flaky_detail_client i p
          ∧ title q = title p
          ∧ detail_url q = detail_url p
          ∧ date q = date p
          ∧ tags q = tags p
          ∧ description q = description p
          ∧ (is_Some (content q) ∨ is_Some (error q))
          ∧ q = augmented (flaky_detail_client i (detail_url p)) p
          ∧ (fetch_failed (flaky_detail_client i (detail_url p)) →
               error q = failure_message (detail_url p)
                           (flaky_detail_client i (detail_url p))
               ∧ is_Some (error q)
               ∧ content q = content p)
          ∧ (¬ fetch_failed (flaky_detail_client i (detail_url p)) →
               content q = fetched_text (flaky_detail_client i (detail_url p))
               ∧ is_Some (content q)
               ∧ error q = error p).
Proof.
  apply (resolve_all_pointwise 2 flaky_detail_client (sample_post <$> seq 0 5)).
  lia.
Defined.

(** The same run, computed: the failures at positions 1 and 3 are recorded
    in place and the posts around them carry their content. *)
Example resolve_all_flaky :
  (λ out : list post, (λ q : post, (title q, content q, error q)) <$> out)
    <$> resolve_all 2 flaky_detail_client (sample_post <$> seq 0 4)
  = Some [ ("news 0", Some ("first" +:+ newline +:+ newline +:+ "second"), None);
           ("news 1", None, Some "HTTP 404");
           ("news 2", Some ("first" +:+ newline +:+ newline +:+ "second"), None);
           ("news 3", None,
            Some "Timeout while fetching https://www.ddm.org.tw/xmdoc/3") ].
Proof. vm_compute. reflexivity. Qed.

(** ** The crawl run *)

(** A status other than 200 on any listing page ends the run at line 200:
    nothing is published. *)
Lemma scrape_ddm_news_return_early fuel env st :
  pagination_loop fuel (listing_client env) 0 (Some ENTRY_URL) []
  = Some ReturnEarly →
  scrape_ddm_news fuel env st = Some st.
Proof.
  intros Hloop. unfold scrape_ddm_news. rewrite Hloop. by destruct st.
Qed.

(** C1, the failing run: the first listing page yields one entry and
    points to a second page, and the request for the second page times
    out. The loop is left by [break], the one entry collected so far is
    resolved and published: it replaces both [latest_posts] and the current
    posts file, and the previous dataset goes to the archive. *)
Theorem scrape_ddm_news_publishes_partial_listing :
  second_page_times_out 1
    "https://www.ddm.org.tw/xmnews?xsmsid=0K297379120077217595&page=2"
  = TimeoutException
  ∧ ∃ st',
      scrape_ddm_news 2 (run_with second_page_times_out) sample_state
      = Some st'
      ∧ latest_posts sample_state = [sample_post 0]
      ∧ latest_posts st' = [news_post_7]
      ∧ disk sample_state !! POSTS_FILE = Some (Dump [sample_post 0])
      ∧ disk st' !! POSTS_FILE = Some (Dump [news_post_7])
      ∧ disk st' !! day_archive_file sample_now = Some (Dump [sample_post 0]).
Proof.
  split; [reflexivity |].
  eexists. split; [vm_compute; reflexivity |].
  vm_compute. done.
Qed.

(** The sibling path: with a 503 on the second page the same run keeps the
    previous dataset. *)
Example scrape_ddm_news_keeps_on_503 :
  scrape_ddm_news 2 (run_with second_page_unavailable) sample_state
  = Some sample_state.
Proof.
  apply scrape_ddm_news_return_early. reflexivity.
Qed.

(** C10. When the pagination loop ends with no entry collected, the run
    leaves [latest_posts] and every file as they were: [update_posts] is
    never called. *)
Theorem scrape_ddm_news_nothing_collected fuel env st :
  pagination_loop fuel (listing_client env) 0 (Some ENTRY_URL) []
  = Some (LoopDone []) →
  scrape_ddm_news fuel env st = Some st
  ∧ ∀ st', scrape_ddm_news fuel env st = Some st' →
           latest_posts st' = latest_posts st ∧ disk st' = disk st.
Proof.
  intros Hloop.
  assert (Hrun : scrape_ddm_news fuel env st = Some st).
  { unfold scrape_ddm_news. rewrite Hloop.
    rewrite bool_decide_eq_false_2 by (intros Hne; by apply Hne).
    by destruct st. }
  split; [done |]. intros st' Hst'. rewrite Hrun in Hst'. by injection Hst' as <-.
Qed.

(** C10, at a run whose only listing page has no item and no next link. *)
Lemma scrape_ddm_news_nothing_collected_witness :
  scrape_ddm_news 1 (run_with (λ _ _, Response 200 empty_page)) sample_state
  = Some sample_state
  ∧ ∀ st',
      scrape_ddm_news 1 (run_with (λ _ _, Response 200 empty_page))
        sample_state = Some st' →
      latest_posts st' = latest_posts sample_state
      ∧ disk st' = disk sample_state.
Proof.
  apply (scrape_ddm_news_nothing_collected 1
           (run_with (λ _ _, Response 200 empty_page)) sample_state).
  reflexivity.
Defined.

(** ** The read endpoint *)

Lemma py_slice_nonneg {A} (l : list A) (start stop : Z) :
  (0 ≤ start)%Z → (0 ≤ stop ≤ Z.of_nat (length l))%Z →
  py_slice l start stop
  = take (Z.to_nat stop - Z.to_nat start) (drop (Z.to_nat start) l).
Proof.
  intros Hstart Hstop. unfold py_slice.
  rewrite (proj2 (Z.ltb_ge start 0)), (proj2 (Z.ltb_ge stop 0)) by lia.
  rewrite (Z.min_l stop) by lia.
  destruct (Z.le_gt_cases start (Z.of_nat (length l))) as [Hle | Hgt].
  - rewrite Z.min_l by lia. f_equal. lia.
  - rewrite Z.min_r by lia.
    rewrite !drop_ge by lia. by rewrite !take_nil.
Qed.

(** The response of the non-empty branch also describes the empty one,
    except for [last_updated]. *)
Lemma get_posts_fields (latest : list post) archive_stamp (offset limit : Z) :
  (0 ≤ offset + limit)%Z →
  let r := get_posts latest archive_stamp (Some offset) (Some limit) in
  let total := Z.of_nat (length latest) in
  let end_ := Z.min (offset + limit) total in
  r_posts r = py_slice latest offset end_
  ∧ r_total r = total
  ∧ r_has_more r = (end_ <? total)%Z
  ∧ r_offset r = Some offset
  ∧ r_limit r = Some limit.
Proof.
  intros Hsum. destruct latest as [| p latest']; [| done].
  simpl. rewrite Z.min_r by lia.
  unfold py_slice. by rewrite drop_nil, take_nil.
Qed.

(** C6. For a request with [offset ≥ 0] and [1 ≤ limit ≤ 100], the
    response carries the dataset length as [total], echoes [offset] and
    [limit], returns the [limit] posts that follow the first [offset] ones
    (or as many as there are), so [min(limit, max(0, total - offset))]
    posts, and sets [has_more] exactly when [offset] plus the number of
    posts returned is below [total]. *)
Theorem get_posts_page (latest : list post) archive_stamp (offset limit : Z) :
  (0 ≤ offset)%Z →
  (1 ≤ limit ≤ 100)%Z →
  let r := get_posts latest archive_stamp (Some offset) (Some limit) in
  let total := Z.of_nat (length latest) in
  r_total r = total
  ∧ r_offset r = Some offset
  ∧ r_limit r = Some limit
  ∧ r_posts r = take (Z.to_nat limit) (drop (Z.to_nat offset) latest)
  ∧ Z.of_nat (length (r_posts r)) = Z.min limit (Z.max 0 (total - offset))
  ∧ (r_has_more r = true
     ↔ (offset + Z.of_nat (length (r_posts r)) < total)%Z).
Proof.
  intros Hoffset Hlimit r total.
  destruct (get_posts_fields latest archive_stamp offset limit ltac:(lia))
    as (Hposts & Htotal & Hmore & Hoff & Hlim).
  fold r total in Hposts, Htotal, Hmore, Hoff, Hlim.
  assert (Hslice : r_posts r
                   = take (Z.to_nat limit) (drop (Z.to_nat offset) latest)).
  { rewrite Hposts, py_slice_nonneg by (fold total; lia).
    destruct (Z.le_gt_cases (offset + limit) total) as [Hle | Hgt].
    - rewrite Z.min_l by lia. f_equal. lia.
    - rewrite Z.min_r by lia.
      rewrite !take_ge; [done | |]; rewrite length_drop; lia. }
  assert (Hlen : Z.of_nat (length (r_posts r))
                 = Z.min limit (Z.max 0 (total - offset))).
  { rewrite Hslice, length_take, length_drop. subst total. lia. }
  repeat (split; [done |]).
  rewrite Hlen, Hmore, Z.ltb_lt. lia.
Qed.

(** C6, at a dataset of three posts read from offset 1 with limit 10. *)
Lemma get_posts_page_witness :
  let latest := sample_post <$> seq 0 3 in
  let r := get_posts latest None (Some 1%Z) (Some 10%Z) in
  let total := Z.of_nat (length latest) in
  r_total r = total
  ∧ r_offset r = Some 1%Z
  ∧ r_limit r = Some 10%Z
  ∧ r_posts r = take (Z.to_nat 10) (drop (Z.to_nat 1) latest)
  ∧ Z.of_nat (length (r_posts r)) = Z.min 10 (Z.max 0 (total - 1))
  ∧ (r_has_more r = true ↔ (1 + Z.of_nat (length (r_posts r)) < total)%Z).
Proof.
  apply (get_posts_page (sample_post <$> seq 0 3) None 1 10); lia.
Defined.

(** The same request, computed. *)
Example get_posts_second_page :
  get_posts (sample_post <$> seq 0 3) None (Some 1%Z) (Some 10%Z)
  = mk_posts_response [sample_post 1; sample_post 2] 3 (Some 1%Z)
      (Some 10%Z) false None.
Proof. reflexivity. Qed.

(** C9. On an empty dataset the response is an empty list of posts, a total
    of 0, the offset and the limit of the request, [has_more] false and no
    [last_updated], whatever the archive directory holds. *)
Theorem get_posts_empty archive_stamp (offset limit : option Z) :
  get_posts [] archive_stamp offset limit
  = mk_posts_response [] 0 offset limit false None.
Proof. reflexivity. Qed.

(** ** The daily trigger *)

Lemma valid_datetime_fields d :
  valid_datetime d = true →
  (1 ≤ year d ≤ MAXYEAR)%nat
  ∧ (1 ≤ month d ≤ 12)%nat
  ∧ (1 ≤ day d ≤ days_in_month (year d) (month d))%nat
  ∧ (hour d < 24)%nat
  ∧ (minute d < 60)%nat
  ∧ (second d < 60)%nat
  ∧ (Z.of_nat (microsecond d) < 1000000)%Z.
Proof.
  unfold valid_datetime. rewrite !andb_true_iff.
  rewrite !Nat.leb_le, !Nat.ltb_lt, Z.ltb_lt. tauto.
Qed.

Lemma is_leap_Z y :
  is_leap y
  = ((Z.of_nat y mod 4 =? 0) && (negb (Z.of_nat y mod 100 =? 0)
                                  || (Z.of_nat y mod 400 =? 0)))%Z.
Proof.
  assert (Hmod : ∀ k, (y mod k =? 0)%nat
                      = (Z.of_nat y mod Z.of_nat k =? 0)%Z).
  { intros k. rewrite <- Nat2Z.inj_mod.
    destruct (Nat.eqb_spec (y mod k) 0),
      (Z.eqb_spec (Z.of_nat (y mod k)) 0); lia. }
  unfold is_leap. by rewrite (Hmod 4), (Hmod 100), (Hmod 400).
Qed.

(** A year is 365 days long, 366 when it is a leap year. *)
Lemma days_before_year_succ y :
  (1 ≤ y)%nat →
  days_before_year (S y)
  = (days_before_year y + if is_leap y then 366 else 365)%Z.
Proof.
  intros Hy. rewrite is_leap_Z. unfold days_before_year.
  replace (Z.of_nat (S y) - 1)%Z with (Z.of_nat y) by lia.
  set (z := Z.of_nat y) in *. assert (1 ≤ z)%Z by lia. clearbody z.
  destruct (Z.eqb_spec (z mod 4) 0), (Z.eqb_spec (z mod 100) 0),
    (Z.eqb_spec (z mod 400) 0); simpl.
  all: Z.to_euclidean_division_equations; lia.
Qed.

Lemma sum_list_snoc (l : list nat) (x : nat) :
  sum_list (l ++ [x]) = sum_list l + x.
Proof. induction l as [| y l IH]; simpl; lia. Qed.

Lemma days_before_month_succ y m :
  (1 ≤ m)%nat →
  days_before_month y (S m)
  = (days_before_month y m + Z.of_nat (days_in_month y m))%Z.
Proof.
  intros Hm. unfold days_before_month.
  destruct m as [| m']; [lia |].
  replace (S (S m') - 1) with (S m') by lia.
  replace (S m' - 1) with m' by lia.
  rewrite seq_S, fmap_app.
  change (days_in_month y <$> [1 + m']) with [days_in_month y (S m')].
  rewrite sum_list_snoc. lia.
Qed.

Lemma days_before_month_december y :
  (days_before_month y 12 + 31)%Z = if is_leap y then 366%Z else 365%Z.
Proof. unfold days_before_month. simpl. by destruct (is_leap y). Qed.

(** Adding one day moves a valid date other than the last one to the date
    whose ordinal is one more, and keeps the time. *)
Lemma toordinal_add_one_day d :
  valid_datetime d = true →
  is_last_day d = false →
  ∃ d', add_one_day d = Some d'
    ∧ toordinal d' = (toordinal d + 1)%Z
    ∧ hour d' = hour d ∧ minute d' = minute d
    ∧ second d' = second d ∧ microsecond d' = microsecond d.
Proof.
  intros Hvalid Hyear.
  destruct (valid_datetime_fields d Hvalid) as (Hy & Hm & Hd & _).
  unfold add_one_day.
  destruct (Nat.ltb_spec (day d) (days_in_month (year d) (month d))) as [Hlt | Hge].
  { eexists. split; [done |]. unfold toordinal. simpl. lia. }
  destruct (Nat.ltb_spec (month d) 12) as [Hmlt | Hmge].
  { eexists. split; [done |]. unfold toordinal. simpl.
    rewrite days_before_month_succ by lia. lia. }
  assert (Hm12 : month d = 12) by lia. rewrite Hm12 in *.
  change (days_in_month (year d) 12) with 31 in *.
  assert (Hd31 : day d = 31) by lia.
  unfold is_last_day in Hyear. rewrite Hm12, Hd31, !andb_true_r in Hyear.
  apply Nat.eqb_neq in Hyear.
  rewrite (proj2 (Nat.ltb_lt (year d) MAXYEAR)) by lia.
  eexists. split; [done |]. unfold toordinal. simpl.
  rewrite days_before_year_succ by lia.
  pose proof (days_before_month_december (year d)) as Hdec.
  rewrite Hm12.
  change (days_before_month (S (year d)) 1) with 0%Z.
  destruct (is_leap (year d)); lia.
Qed.

(** [now >= next_run] on the fields agrees with the order of the times of
    day, since both lie on the same date. *)
Lemma datetime_ge_at_time now h m :
  valid_datetime now = true →
  (m < 60)%nat →
  datetime_ge now (at_time now h m) = true
  ↔ (time_of_day (at_time now h m) ≤ time_of_day now)%Z.
Proof.
  intros Hvalid Hm.
  destruct (valid_datetime_fields now Hvalid)
    as (_ & _ & _ & Hh & Hmin & Hsec & Hus).
  unfold datetime_ge, datetime_fields, at_time, time_of_day. simpl.
  rewrite !Nat.compare_refl.
  destruct (Nat.compare_spec (hour now) h),
    (Nat.compare_spec (minute now) m),
    (Nat.compare_spec (second now) 0),
    (Nat.compare_spec (microsecond now) 0);
    split; intros; try done; lia.
Qed.

Lemma valid_at_time now h m :
  valid_datetime now = true → (h < 24)%nat → (m < 60)%nat →
  valid_datetime (at_time now h m) = true.
Proof.
  intros Hvalid Hh Hm.
  destruct (valid_datetime_fields now Hvalid) as (Hy & Hmo & Hd & _).
  unfold valid_datetime, at_time.
  cbn [year month day hour minute second microsecond].
  rewrite !andb_true_iff, !Nat.leb_le, !Nat.ltb_lt, Z.ltb_lt.
  repeat split; lia.
Qed.

(** On the fields of a clock reading, which stand for the wall clock of
    the UTC offset in force at the reading: for a valid reading [now] (any
    date but 9999-12-31, which has no following day) and a target [h:m],
    the next run computed is at [h:m:00] sharp, on the date of [now] when
    the time of day of [now] is strictly before the target, and on the
    following calendar day (ordinal plus one) when it is at or past the
    target. The wait is positive and at most one day. *)
Theorem next_run_daily now h m :
  valid_datetime now = true →
  is_last_day now = false →
  (h < 24)%nat →
  (m < 60)%nat →
  ∃ nr,
    next_run now h m = Some nr
    ∧ hour nr = h ∧ minute nr = m ∧ second nr = 0 ∧ microsecond nr = 0
    ∧ ((time_of_day now < time_of_day (at_time now h m))%Z →
         nr = at_time now h m)
    ∧ ((time_of_day (at_time now h m) ≤ time_of_day now)%Z →
         add_one_day (at_time now h m) = Some nr
         ∧ toordinal nr = (toordinal now + 1)%Z)
    ∧ (0 < wait_microseconds now nr ≤ microseconds_per_day)%Z.
Proof.
  intros Hvalid Hyear Hh Hm.
  pose proof (datetime_ge_at_time now h m Hvalid Hm) as Hge.
  destruct (valid_datetime_fields now Hvalid)
    as (_ & _ & _ & Hhour & Hmin & Hsec & Hus).
  unfold next_run, replace_time.
  rewrite (proj2 (Nat.ltb_lt h 24) Hh), (proj2 (Nat.ltb_lt m 60) Hm). simpl.
  fold (at_time now h m).
  destruct (datetime_ge now (at_time now h m)) eqn:Hcmp.
  - assert (Hpast : (time_of_day (at_time now h m) ≤ time_of_day now)%Z)
      by (by apply Hge).
    destruct (toordinal_add_one_day (at_time now h m)
                (valid_at_time now h m Hvalid Hh Hm) Hyear)
      as (nr & Hnr & Hord & Hnh & Hnm & Hns & Hnus).
    change (toordinal (at_time now h m)) with (toordinal now) in Hord.
    simpl in Hnh, Hnm, Hns, Hnus.
    exists nr. repeat (split; [done |]). split; [intros; lia |].
    split; [done |].
    unfold wait_microseconds, to_microseconds, microseconds_per_day.
    rewrite Hord, Hnh, Hnm, Hns, Hnus.
    unfold time_of_day in Hpast. simpl in Hpast. lia.
  - assert (Hbefore : (time_of_day now < time_of_day (at_time now h m))%Z).
    { destruct (Z.lt_ge_cases (time_of_day now)
                  (time_of_day (at_time now h m))) as [| Hle]; [done |].
      apply Hge in Hle. congruence. }
    exists (at_time now h m). repeat (split; [done |]).
    split; [intros; lia |].
    unfold wait_microseconds, to_microseconds, microseconds_per_day.
    change (toordinal (at_time now h m)) with (toordinal now).
    unfold time_of_day in Hbefore. simpl in *. lia.
Qed.

(** The scenario: invoked at 03:05 with a 03:00 target. *)
Lemma next_run_daily_witness :
  ∃ nr,
    next_run five_past_three 3 0 = Some nr
    ∧ hour nr = 3 ∧ minute nr = 0 ∧ second nr = 0 ∧ microsecond nr = 0
    ∧ ((time_of_day five_past_three
        < time_of_day (at_time five_past_three 3 0))%Z →
         nr = at_time five_past_three 3 0)
    ∧ ((time_of_day (at_time five_past_three 3 0)
        ≤ time_of_day five_past_three)%Z →
         add_one_day (at_time five_past_three 3 0) = Some nr
         ∧ toordinal nr = (toordinal five_past_three + 1)%Z)
    ∧ (0 < wait_microseconds five_past_three nr ≤ microseconds_per_day)%Z.
Proof.
  apply (next_run_daily five_past_three 3 0).
  - reflexivity.
  - reflexivity.
  - lia.
  - lia.
Defined.

(** The scenario, computed: at 03:05 on 2024-02-28 the next 03:00 run is on
    2024-02-29, five minutes short of a day away; at 02:55 it is the same
    day. *)
Example next_run_five_past_three :
  next_run five_past_three 3 0 = Some (mk_datetime 2024 2 29 3 0 0 0)
  ∧ wait_microseconds five_past_three (mk_datetime 2024 2 29 3 0 0 0)
    = (microseconds_per_day - 5 * 60 * 1000000)%Z
  ∧ next_run (mk_datetime 2024 2 28 2 55 0 0) 3 0
    = Some (mk_datetime 2024 2 28 3 0 0 0).
Proof. vm_compute. done. Qed.

(** * Further properties of the publisher *)

(** What one publish call does, by the faults it meets and by whether a
    current posts file exists. *)
Lemma update_posts_cases ft now1 now2 new_posts (fs : filesystem) :
  let r := update_posts ft now1 now2 new_posts fs in
  let staged := staged_fs new_posts fs in
  match save_fault ft with
  | Some OpenFails => r = (false, fs)
  | Some DumpFails => r = (false, <[POSTS_NEW_FILE := Truncated new_posts]> fs)
  | None =>
      match fs !! POSTS_FILE with
      | None =>
          if commit_move_fails ft
          then r = (false,
                    cleanup_staged (unlink_fails ft)
                      (left_behind (commit_move_leaves ft) (Dump new_posts)
                         POSTS_FILE staged))
          else r = (true, <[POSTS_FILE := Dump new_posts]>
                            (delete POSTS_NEW_FILE staged))
      | Some c =>
          if archive_move_fails ft
          then r = (false,
                    left_behind (archive_move_leaves ft) c
                      (archive_file now1 now2 fs) staged)
          else
            let archived :=
              <[archive_file now1 now2 fs := c]> (delete POSTS_FILE staged) in
            if commit_move_fails ft
            then r = (false,
                      cleanup_staged (unlink_fails ft)
                        (left_behind (commit_move_leaves ft) (Dump new_posts)
                           POSTS_FILE archived))
            else r = (true, <[POSTS_FILE := Dump new_posts]>
                              (delete POSTS_NEW_FILE archived))
      end
  end.
Proof.
  intros r staged. subst r staged.
  destruct (save_fault ft) as [[] |] eqn:Hsave.
  1-2: by unfold update_posts, save_posts; rewrite Hsave.
  rewrite update_posts_staged by done.
  assert (Hcur : staged_fs new_posts fs !! POSTS_FILE = fs !! POSTS_FILE).
  { unfold staged_fs. apply lookup_insert_ne.
    intros Heq. by apply POSTS_FILE_ne_new. }
  assert (Hnew : staged_fs new_posts fs !! POSTS_NEW_FILE
                 = Some (Dump new_posts))
    by apply lookup_insert_eq.
  destruct (fs !! POSTS_FILE) as [c |] eqn:Hfs.
  - destruct (archive_move_fails ft).
    + rewrite (archive_current_posts_raised _ _ _ c) by done.
      by rewrite archive_file_staged.
    + rewrite (archive_current_posts_moved _ _ _ c) by done.
      rewrite archive_file_staged. simpl.
      destruct (archive_file_ne_current now1 now2 fs) as [Hne1 Hne2].
      unfold shutil_move.
      rewrite lookup_insert_ne by done.
      rewrite lookup_delete_ne by apply POSTS_FILE_ne_new.
      rewrite Hnew. by destruct (commit_move_fails ft).
  - rewrite archive_current_posts_absent by done. simpl.
    unfold shutil_move. rewrite Hnew.
    by destruct (commit_move_fails ft).
Qed.

(** Split a goal about one publish call into the cases of
    [update_posts_cases] and rewrite the call away. *)
Ltac publish_cases ft now1 now2 new_posts fs :=
  let H := fresh "Hcall" in
  pose proof (update_posts_cases ft now1 now2 new_posts fs) as H;
  cbv zeta in H;
  destruct (save_fault ft) as [[] |] eqn:?;
    [ | | destruct (fs !! POSTS_FILE) eqn:?;
          [ destruct (archive_move_fails ft) eqn:?;
            [ | destruct (commit_move_fails ft) eqn:? ]
          | destruct (commit_move_fails ft) eqn:? ] ];
  rewrite H in *; clear H; simpl fst in *; simpl snd in *.

(** A publish call reports success exactly when staging meets no fault,
    the archive move does not raise (or there is nothing to archive) and
    the final move does not raise. *)
Theorem update_posts_true_iff ft now1 now2 new_posts (fs : filesystem) :
  (update_posts ft now1 now2 new_posts fs).1 = true
  ↔ save_fault ft = None
    ∧ (fs !! POSTS_FILE = None ∨ archive_move_fails ft = false)
    ∧ commit_move_fails ft = false.
Proof.
  publish_cases ft now1 now2 new_posts fs; split;
    try (intros (? & [? | ?] & ?)); try done; intros; auto.
Qed.

(** After a publish call that reports success, the current posts file is
    the complete dump of the new posts, the staged file is gone, what the
    current file held before sits in the archive under the chosen name, and
    every other file is as it was. A first publish, with no current file
    before, adds nothing to the archive. *)
Theorem update_posts_committed ft now1 now2 new_posts (fs : filesystem) :
  (update_posts ft now1 now2 new_posts fs).1 = true →
  let fs' := (update_posts ft now1 now2 new_posts fs).2 in
  fs' !! POSTS_FILE = Some (Dump new_posts)
  ∧ fs' !! POSTS_NEW_FILE = None
  ∧ (∀ c, fs !! POSTS_FILE = Some c →
          fs' !! archive_file now1 now2 fs = Some c)
  ∧ (∀ p, p ≠ POSTS_FILE → p ≠ POSTS_NEW_FILE →
          p ≠ archive_file now1 now2 fs → fs' !! p = fs !! p)
  ∧ (fs !! POSTS_FILE = None →
       ∀ p, p ≠ POSTS_FILE → p ≠ POSTS_NEW_FILE → fs' !! p = fs !! p).
Proof.
  pose proof POSTS_FILE_ne_new as Hne.
  destruct (archive_file_ne_current now1 now2 fs) as [Ha1 Ha2].
  publish_cases ft now1 now2 new_posts fs; intros Hok; try done;
    unfold staged_fs; simpl.
  - split; [by simplify_map_eq |]. split; [by simplify_map_eq |].
    split; [intros c' [= <-]; by simplify_map_eq |].
    split; [intros; by simplify_map_eq | done].
  - split; [by simplify_map_eq |]. split; [by simplify_map_eq |].
    split; [done |].
    split; intros; by simplify_map_eq.
Qed.

(** The call of the C7 witness disk: the previous dataset goes to the
    refined archive name and the new one is current. *)
Lemma update_posts_committed_witness :
  let fs' := (update_posts no_faults sample_now sample_now [sample_post 2]
                disk_archived_today).2 in
  fs' !! POSTS_FILE = Some (Dump [sample_post 2])
  ∧ fs' !! POSTS_NEW_FILE = None
  ∧ fs' !! minute_archive_file sample_now = Some (Dump [sample_post 1])
  ∧ fs' !! day_archive_file sample_now = Some (Dump [sample_post 0]).
Proof.
  destruct (update_posts_committed no_faults sample_now sample_now
              [sample_post 2] disk_archived_today)
    as (Hcur & Hnew & Harch & Hrest & _); [reflexivity |].
  split; [exact Hcur |]. split; [exact Hnew |]. split.
  - apply (Harch (Dump [sample_post 1])). reflexivity.
  - rewrite Hrest; [reflexivity | discriminate | discriminate |].
    vm_compute. discriminate.
Defined.

(** What [load_current_posts] reads back after a successful publish is the
    list that was published. *)
Theorem load_current_posts_after_publish
    ft now1 now2 new_posts (fs : filesystem) :
  (update_posts ft now1 now2 new_posts fs).1 = true →
  load_current_posts (update_posts ft now1 now2 new_posts fs).2 = new_posts.
Proof.
  pose proof POSTS_FILE_ne_new as Hne.
  unfold load_current_posts.
  publish_cases ft now1 now2 new_posts fs; intros Hok; try done;
    by simplify_map_eq.
Qed.

Lemma load_current_posts_after_publish_witness :
  load_current_posts
    (update_posts no_faults sample_now sample_now [sample_post 1]
       disk_published).2
  = [sample_post 1].
Proof.
  apply (load_current_posts_after_publish no_faults sample_now sample_now
           [sample_post 1] disk_published).
  reflexivity.
Defined.

(** The call fails at the committing step exactly when staging and
    archiving go through and the final move raises. *)
Lemma fails_at_committing_iff ft now1 now2 new_posts (fs : filesystem) :
  fails_at_committing ft now1 now2 new_posts fs
  ↔ save_fault ft = None
    ∧ (fs !! POSTS_FILE = None ∨ archive_move_fails ft = false)
    ∧ commit_move_fails ft = true.
Proof.
  unfold fails_at_committing. cbv zeta.
  assert (Hcur : staged_fs new_posts fs !! POSTS_FILE = fs !! POSTS_FILE).
  { unfold staged_fs. apply lookup_insert_ne.
    intros Heq. by apply POSTS_FILE_ne_new. }
  destruct (archive_file_ne_current now1 now2 (staged_fs new_posts fs))
    as [_ Hne2].
  destruct (fs !! POSTS_FILE) as [c |] eqn:Hfs.
  - destruct (archive_move_fails ft).
    + rewrite (archive_current_posts_raised _ _ _ c) by done. simpl.
      split; [intros (_ & [=] & _) | intros (_ & [[=] | [=]] & _)].
    + rewrite (archive_current_posts_moved _ _ _ c) by done. simpl.
      unfold shutil_move. rewrite lookup_insert_ne by done.
      rewrite lookup_delete_ne by apply POSTS_FILE_ne_new.
      unfold staged_fs at 1. rewrite lookup_insert_eq.
      destruct (commit_move_fails ft); simpl; intuition congruence.
  - rewrite archive_current_posts_absent by done. simpl.
    unfold shutil_move, staged_fs. rewrite lookup_insert_eq.
    destruct (commit_move_fails ft); simpl; intuition congruence.
Qed.

(** After a publish call that reports failure, [load_current_posts] reads
    what it read before the call, unless the call failed at the committing
    step. Then the current posts file is what the raising move left of it:
    nothing or a torn copy, and [load_current_posts] reads the empty list,
    or the complete new file, and it reads the new posts. *)
Theorem load_current_posts_after_failure
    ft now1 now2 new_posts (fs : filesystem) :
  (update_posts ft now1 now2 new_posts fs).1 = false →
  let fs' := (update_posts ft now1 now2 new_posts fs).2 in
  (fails_at_committing ft now1 now2 new_posts fs →
     fs' !! POSTS_FILE
     = match commit_move_leaves ft with
       | LeavesNothing => None
       | LeavesTornCopy => Some (Truncated new_posts)
       | LeavesFullCopy => Some (Dump new_posts)
       end
     ∧ load_current_posts fs'
       = match commit_move_leaves ft with
         | LeavesNothing | LeavesTornCopy => []
         | LeavesFullCopy => new_posts
         end)
  ∧ (¬ fails_at_committing ft now1 now2 new_posts fs →
       fs' !! POSTS_FILE = fs !! POSTS_FILE
       ∧ load_current_posts fs' = load_current_posts fs).
Proof.
  intros Hfail fs'. rewrite fails_at_committing_iff. subst fs'.
  pose proof POSTS_FILE_ne_new as Hne.
  destruct (archive_file_ne_current now1 now2 fs) as [Ha1 Ha2].
  assert (Hleft : ∀ residue (base : filesystem),
            base !! POSTS_FILE = None →
            cleanup_staged (unlink_fails ft)
              (left_behind residue (Dump new_posts) POSTS_FILE base)
            !! POSTS_FILE
            = match residue with
              | LeavesNothing => None
              | LeavesTornCopy => Some (Truncated new_posts)
              | LeavesFullCopy => Some (Dump new_posts)
              end).
  { intros residue base Hbase. rewrite cleanup_staged_lookup_ne by done.
    destruct residue; simpl; by simplify_map_eq. }
  assert (Hsame : ∀ a : filesystem,
            a !! POSTS_FILE = fs !! POSTS_FILE →
            a !! POSTS_FILE = fs !! POSTS_FILE
            ∧ load_current_posts a = load_current_posts fs).
  { intros a Ha. split; [done |]. unfold load_current_posts. by rewrite Ha. }
  publish_cases ft now1 now2 new_posts fs; try done.
  - split; [intros ([=] & _) |]. intros _. by apply Hsame.
  - split; [intros ([=] & _) |]. intros _. apply Hsame. by simplify_map_eq.
  - split; [intros (_ & [[=] | [=]] & _) |]. intros _. apply Hsame.
    rewrite left_behind_lookup_ne by done.
    unfold staged_fs. by simplify_map_eq.
  - split; [| intros Hn; destruct Hn; auto]. intros _.
    unfold load_current_posts. rewrite Hleft.
    + by destruct (commit_move_leaves ft).
    + unfold staged_fs. by simplify_map_eq.
  - split; [| intros Hn; destruct Hn; auto]. intros _.
    unfold load_current_posts. rewrite Hleft.
    + by destruct (commit_move_leaves ft).
    + unfold staged_fs. by simplify_map_eq.
Qed.

(** At a call whose final move raises after its copy is complete: the call
    reports failure and a restart would load the new posts. *)
Lemma load_current_posts_after_failure_witness :
  let r := update_posts committing_copies sample_now sample_now
             [sample_post 1] disk_published in
  r.1 = false
  ∧ load_current_posts disk_published = [sample_post 0]
  ∧ r.2 !! POSTS_FILE = Some (Dump [sample_post 1])
  ∧ load_current_posts r.2 = [sample_post 1].
Proof.
  destruct (load_current_posts_after_failure committing_copies sample_now
              sample_now [sample_post 1] disk_published)
    as [Hcommit _]; [reflexivity |].
  split; [reflexivity |]. split; [reflexivity |].
  apply Hcommit. vm_compute. done.
Defined.

(** * Archive names *)

Lemma string_app_cons (x : ascii) (a b : string) :
  String x a +:+ b = String x (a +:+ b).
Proof. reflexivity. Qed.

Lemma string_app_assoc (a b c : string) : (a +:+ b) +:+ c = a +:+ (b +:+ c).
Proof.
  induction a as [| x a IH]; [done |].
  by rewrite !string_app_cons, IH.
Qed.

Lemma string_length_app (a b : string) :
  String.length (a +:+ b) = String.length a + String.length b.
Proof.
  induction a as [| x a IH]; [done |].
  rewrite string_app_cons. simpl. by rewrite IH.
Qed.

(** Two concatenations with heads of one length agree part by part. *)
Lemma string_app_inv (a1 a2 b1 b2 : string) :
  String.length a1 = String.length a2 →
  a1 +:+ b1 = a2 +:+ b2 →
  a1 = a2 ∧ b1 = b2.
Proof.
  revert a2. induction a1 as [| x a1 IH]; intros [| y a2] Hlen Heq;
    try done.
  rewrite !string_app_cons in Heq.
  injection Heq as -> Heq. injection Hlen as Hlen.
  destruct (IH a2 Hlen Heq) as [-> ->]. done.
Qed.

(** A year field is four characters wide and reads back as the year; a
    month, day, hour or minute field is two characters wide and reads back
    as the number. *)
Lemma zfill_4_field y :
  (y ≤ MAXYEAR)%nat →
  String.length (zfill 4 (pretty y)) = 4
  ∧ decimal_value (zfill 4 (pretty y)) = y.
Proof.
  intros Hy.
  assert (Hall : forallb
            (λ y, (String.length (zfill 4 (pretty y)) =? 4)%nat
                  && (decimal_value (zfill 4 (pretty y)) =? y)%nat)
            (seq 0 (S MAXYEAR)) = true)
    by (vm_compute; reflexivity).
  rewrite forallb_forall in Hall.
  specialize (Hall y). rewrite andb_true_iff, !Nat.eqb_eq in Hall.
  apply Hall, in_seq. lia.
Qed.

Lemma zfill_2_field n :
  (n < 100)%nat →
  String.length (zfill 2 (pretty n)) = 2
  ∧ decimal_value (zfill 2 (pretty n)) = n.
Proof.
  intros Hn.
  assert (Hall : forallb
            (λ n, (String.length (zfill 2 (pretty n)) =? 2)%nat
                  && (decimal_value (zfill 2 (pretty n)) =? n)%nat)
            (seq 0 100) = true)
    by (vm_compute; reflexivity).
  rewrite forallb_forall in Hall.
  specialize (Hall n). rewrite andb_true_iff, !Nat.eqb_eq in Hall.
  apply Hall, in_seq. lia.
Qed.

Lemma days_in_month_le y m : (days_in_month y m ≤ 31)%nat.
Proof.
  unfold days_in_month.
  do 12 (destruct m as [| m]; [try destruct (is_leap y); lia |]). lia.
Qed.

(** The date stamp is eight characters wide and determines the date. *)
Lemma strftime_Ymd_inv d1 d2 (t1 t2 : string) :
  valid_datetime d1 = true →
  valid_datetime d2 = true →
  strftime_Ymd d1 +:+ t1 = strftime_Ymd d2 +:+ t2 →
  year d1 = year d2 ∧ month d1 = month d2 ∧ day d1 = day d2 ∧ t1 = t2.
Proof.
  intros Hv1 Hv2 Heq.
  destruct (valid_datetime_fields d1 Hv1) as (Hy1 & Hm1 & Hd1 & _).
  destruct (valid_datetime_fields d2 Hv2) as (Hy2 & Hm2 & Hd2 & _).
  pose proof (days_in_month_le (year d1) (month d1)).
  pose proof (days_in_month_le (year d2) (month d2)).
  destruct (zfill_4_field (year d1)) as [Ly1 Vy1]; [lia |].
  destruct (zfill_4_field (year d2)) as [Ly2 Vy2]; [lia |].
  destruct (zfill_2_field (month d1)) as [Lm1 Vm1]; [lia |].
  destruct (zfill_2_field (month d2)) as [Lm2 Vm2]; [lia |].
  destruct (zfill_2_field (day d1)) as [Ld1 Vd1]; [lia |].
  destruct (zfill_2_field (day d2)) as [Ld2 Vd2]; [lia |].
  unfold strftime_Ymd in Heq. rewrite !string_app_assoc in Heq.
  apply string_app_inv in Heq as [Hy Heq]; [| congruence].
  apply string_app_inv in Heq as [Hm Heq]; [| congruence].
  apply string_app_inv in Heq as [Hd Heq]; [| congruence].
  rewrite Hy in Vy1. rewrite Hm in Vm1. rewrite Hd in Vd1.
  repeat split; congruence.
Qed.

Lemma day_archive_file_unfold d :
  day_archive_file d = "data/archive/posts_" +:+ (strftime_Ymd d +:+ ".json").
Proof. reflexivity. Qed.

Lemma minute_archive_file_unfold d :
  minute_archive_file d
  = "data/archive/posts_"
    +:+ (strftime_Ymd d
         +:+ ("_" +:+ (zfill 2 (pretty (hour d))
                       +:+ (zfill 2 (pretty (minute d)) +:+ ".json")))).
Proof.
  unfold minute_archive_file, strftime_Ymd_HM.
  change (path_join ARCHIVE_DIR ?x) with ("data/archive/" +:+ x).
  rewrite !string_app_assoc. reflexivity.
Qed.

Lemma archive_names_facts d1 d2 :
  valid_datetime d1 = true →
  valid_datetime d2 = true →
  (day_archive_file d1 = day_archive_file d2 →
     year d1 = year d2 ∧ month d1 = month d2 ∧ day d1 = day d2)
  ∧ (minute_archive_file d1 = minute_archive_file d2 →
       year d1 = year d2 ∧ month d1 = month d2 ∧ day d1 = day d2
       ∧ hour d1 = hour d2 ∧ minute d1 = minute d2)
  ∧ day_archive_file d1 ≠ minute_archive_file d2.
Proof.
  intros Hv1 Hv2.
  destruct (valid_datetime_fields d1 Hv1) as (_ & _ & _ & Hh1 & Hmin1 & _).
  destruct (valid_datetime_fields d2 Hv2) as (_ & _ & _ & Hh2 & Hmin2 & _).
  rewrite !day_archive_file_unfold, !minute_archive_file_unfold.
  split; [| split].
  - intros Heq. apply (inj (String.append _)) in Heq.
    apply strftime_Ymd_inv in Heq; [| done | done]. tauto.
  - intros Heq. apply (inj (String.append _)) in Heq.
    apply strftime_Ymd_inv in Heq as (? & ? & ? & Heq); [| done | done].
    apply (inj (String.append _)) in Heq.
    destruct (zfill_2_field (hour d1)) as [Lh1 Vh1]; [lia |].
    destruct (zfill_2_field (hour d2)) as [Lh2 Vh2]; [lia |].
    destruct (zfill_2_field (minute d1)) as [Lm1 Vm1]; [lia |].
    destruct (zfill_2_field (minute d2)) as [Lm2 Vm2]; [lia |].
    apply string_app_inv in Heq as [Hh Heq]; [| congruence].
    apply string_app_inv in Heq as [Hm _]; [| congruence].
    rewrite Hh in Vh1. rewrite Hm in Vm1.
    repeat split; congruence.
  - intros Heq. apply (inj (String.append _)) in Heq.
    apply strftime_Ymd_inv in Heq as (_ & _ & _ & Heq); [| done | done].
    discriminate Heq.
Qed.

(** The archive name tells the date: for valid clock readings, equal
    date-stamped names mean equal dates, equal refined names mean equal
    dates, hours and minutes, and a date-stamped name is never a refined
    name. *)
Theorem archive_names_tell_dates d1 d2 :
  valid_datetime d1 = true →
  valid_datetime d2 = true →
  (day_archive_file d1 = day_archive_file d2 →
     year d1 = year d2 ∧ month d1 = month d2 ∧ day d1 = day d2)
  ∧ (minute_archive_file d1 = minute_archive_file d2 →
       year d1 = year d2 ∧ month d1 = month d2 ∧ day d1 = day d2
       ∧ hour d1 = hour d2 ∧ minute d1 = minute d2)
  ∧ day_archive_file d1 ≠ minute_archive_file d2.
Proof. apply archive_names_facts. Qed.

Lemma archive_names_tell_dates_witness :
  (day_archive_file sample_now = day_archive_file five_past_three →
     year sample_now = year five_past_three
     ∧ month sample_now = month five_past_three
     ∧ day sample_now = day five_past_three)
  ∧ (minute_archive_file sample_now = minute_archive_file five_past_three →
       year sample_now = year five_past_three
       ∧ month sample_now = month five_past_three
       ∧ day sample_now = day five_past_three
       ∧ hour sample_now = hour five_past_three
       ∧ minute sample_now = minute five_past_three)
  ∧ day_archive_file sample_now ≠ minute_archive_file five_past_three.
Proof.
  apply (archive_names_tell_dates sample_now five_past_three); reflexivity.
Defined.

(** The file system a successful publish call leaves. *)
Lemma update_posts_true_result ft now1 now2 new_posts (fs : filesystem) :
  (update_posts ft now1 now2 new_posts fs).1 = true →
  (update_posts ft now1 now2 new_posts fs).2
  = <[POSTS_FILE := Dump new_posts]>
      (delete POSTS_NEW_FILE
         match fs !! POSTS_FILE with
         | Some c =>
             <[archive_file now1 now2 fs := c]>
               (delete POSTS_FILE (staged_fs new_posts fs))
         | None => staged_fs new_posts fs
         end).
Proof. publish_cases ft now1 now2 new_posts fs; done. Qed.

(** Two publish calls on one day, the first of the day's archive names
    being free: the dataset that was current before the first call is kept
    under the date-stamped name, the one the first call published under
    the refined name, and the one the second call published is current. *)
Theorem update_posts_twice_same_day
    ft1 ft2 a1 a2 b1 b2 first second c0 (fs : filesystem) :
  valid_datetime a1 = true →
  valid_datetime b2 = true →
  day_archive_file b1 = day_archive_file a1 →
  fs !! POSTS_FILE = Some c0 →
  fs !! day_archive_file a1 = None →
  fs !! minute_archive_file b2 = None →
  (update_posts ft1 a1 a2 first fs).1 = true →
  (update_posts ft2 b1 b2 second (update_posts ft1 a1 a2 first fs).2).1
  = true →
  let fs2 :=
    (update_posts ft2 b1 b2 second (update_posts ft1 a1 a2 first fs).2).2 in
  fs2 !! POSTS_FILE = Some (Dump second)
  ∧ fs2 !! POSTS_NEW_FILE = None
  ∧ fs2 !! day_archive_file a1 = Some c0
  ∧ fs2 !! minute_archive_file b2 = Some (Dump first).
Proof.
  intros Hva Hvb Hday Hcur Hfree1 Hfree2 Hok1 Hok2 fs2. subst fs2.
  pose proof POSTS_FILE_ne_new as Hne.
  destruct (day_archive_file_ne_current a1) as [Hd1 Hd2].
  destruct (minute_archive_file_ne_current b2) as [Hm1 Hm2].
  destruct (archive_names_facts a1 b2 Hva Hvb) as (_ & _ & Hdm).
  rewrite (update_posts_true_result ft2) by done.
  rewrite (update_posts_true_result ft1) in * by done.
  rewrite Hcur.
  assert (Hname1 : archive_file a1 a2 fs = day_archive_file a1).
  { unfold archive_file. apply exists_false in Hfree1. by rewrite Hfree1. }
  rewrite Hname1.
  set (fs1 := <[POSTS_FILE := Dump first]>
                (delete POSTS_NEW_FILE
                   (<[day_archive_file a1 := c0]>
                      (delete POSTS_FILE (staged_fs first fs))))).
  assert (Hcur1 : fs1 !! POSTS_FILE = Some (Dump first))
    by (subst fs1; by simplify_map_eq).
  assert (Hday1 : fs1 !! day_archive_file a1 = Some c0)
    by (subst fs1; by simplify_map_eq).
  assert (Hname2 : archive_file b1 b2 fs1 = minute_archive_file b2).
  { unfold archive_file. rewrite Hday.
    assert (exists_ (day_archive_file a1) fs1 = true) as ->; [| done].
    apply exists_true. eauto. }
  rewrite Hcur1, Hname2. unfold staged_fs.
  split; [by simplify_map_eq |]. split; [by simplify_map_eq |].
  split; by simplify_map_eq.
Qed.

(** Two publish calls at 03:00:30 on 2024-01-01. *)
Lemma update_posts_twice_same_day_witness :
  let fs2 :=
    (update_posts no_faults sample_now sample_now [sample_post 2]
       (update_posts no_faults sample_now sample_now [sample_post 1]
          disk_published).2).2 in
  fs2 !! POSTS_FILE = Some (Dump [sample_post 2])
  ∧ fs2 !! POSTS_NEW_FILE = None
  ∧ fs2 !! day_archive_file sample_now = Some (Dump [sample_post 0])
  ∧ fs2 !! minute_archive_file sample_now = Some (Dump [sample_post 1]).
Proof.
  apply (update_posts_twice_same_day no_faults no_faults sample_now
           sample_now sample_now sample_now [sample_post 1] [sample_post 2]
           (Dump [sample_post 0]) disk_published); reflexivity.
Defined.

(** * Further properties of the crawl run *)

(** What the current posts file holds after one publish call. *)
Lemma update_posts_current ft now1 now2 new_posts (fs : filesystem) :
  let r := update_posts ft now1 now2 new_posts fs in
  (r.1 = true → r.2 !! POSTS_FILE = Some (Dump new_posts))
  ∧ (r.1 = false → commit_move_fails ft = false →
       r.2 !! POSTS_FILE = fs !! POSTS_FILE).
Proof.
  pose proof POSTS_FILE_ne_new as Hne.
  destruct (archive_file_ne_current now1 now2 fs) as [Ha1 Ha2].
  publish_cases ft now1 now2 new_posts fs;
    rewrite ?left_behind_lookup_ne by done; unfold staged_fs;
    split; intros; try done; by simplify_map_eq.
Qed.

Lemma load_current_posts_ext (a b : filesystem) :
  a !! POSTS_FILE = b !! POSTS_FILE →
  load_current_posts a = load_current_posts b.
Proof. intros Hab. unfold load_current_posts. by rewrite Hab. Qed.

(** The three ways a run ends: nothing touched, a publish call that
    succeeded, or a publish call that failed. *)
Lemma scrape_ddm_news_cases fuel env st st' :
  scrape_ddm_news fuel env st = Some st' →
  st' = st
  ∨ ∃ all_posts,
      all_posts ≠ []
      ∧ pagination_loop fuel (listing_client env) 0 (Some ENTRY_URL) []
        = Some (LoopDone all_posts)
      ∧ let r := update_posts (disk_faults env) (clock1 env) (clock2 env)
                   (resolve_each (detail_client env) all_posts) (disk st) in
        st' = mk_state
                (if r.1 then resolve_each (detail_client env) all_posts
                 else latest_posts st)
                r.2.
Proof.
  unfold scrape_ddm_news.
  destruct (pagination_loop fuel (listing_client env) 0 (Some ENTRY_URL) [])
    as [[| all_posts] |]; [| | done].
  { intros [= <-]. left. by destruct st. }
  case_bool_decide as Hne; [| intros [= <-]; left; by destruct st].
  rewrite resolve_all_each by lia.
  intros Hrun. right. exists all_posts. split; [done |]. split; [done |].
  cbv zeta.
  destruct (update_posts (disk_faults env) (clock1 env) (clock2 env)
              (resolve_each (detail_client env) all_posts) (disk st))
    as [[] disk']; simpl; by injection Hrun as <-.
Qed.

(** After a run, [latest_posts] is what it was before, or it is a
    non-empty list whose complete dump is the current posts file. And when
    [latest_posts] is what the current file holds before the run and the
    final move of the publish call does not raise, it is what the current
    file holds after the run. *)
Theorem scrape_ddm_news_serves_disk fuel env st st' :
  scrape_ddm_news fuel env st = Some st' →
  (latest_posts st' = latest_posts st
   ∨ (latest_posts st' ≠ []
      ∧ disk st' !! POSTS_FILE = Some (Dump (latest_posts st'))))
  ∧ (latest_posts st = load_current_posts (disk st) →
     commit_move_fails (disk_faults env) = false →
     latest_posts st' = load_current_posts (disk st')).
Proof.
  intros Hrun.
  destruct (scrape_ddm_news_cases fuel env st st' Hrun)
    as [-> | (all_posts & Hne & _ & Hst')]; [by auto |].
  cbv zeta in Hst'.
  destruct (update_posts_current (disk_faults env) (clock1 env) (clock2 env)
              (resolve_each (detail_client env) all_posts) (disk st))
    as [Hok Hfail].
  destruct (update_posts (disk_faults env) (clock1 env) (clock2 env)
              (resolve_each (detail_client env) all_posts) (disk st))
    as [[] disk']; simpl in *; subst st'; simpl.
  - assert (Hnil : resolve_each (detail_client env) all_posts ≠ []).
    { intros Hnil. apply (f_equal length) in Hnil.
      unfold resolve_each in Hnil. rewrite length_imap in Hnil.
      by destruct all_posts. }
    split; [right; auto |]. intros _ _.
    unfold load_current_posts. by rewrite Hok.
  - split; [by left |]. intros Hload Hcommit.
    rewrite Hload. apply load_current_posts_ext. symmetry. auto.
Qed.

(** The run of C1's failing input: what is served afterwards is what the
    current file holds. *)
Lemma scrape_ddm_news_serves_disk_witness :
  ∃ st',
    scrape_ddm_news 2 (run_with second_page_times_out) sample_state = Some st'
    ∧ (latest_posts st' = latest_posts sample_state
       ∨ (latest_posts st' ≠ []
          ∧ disk st' !! POSTS_FILE = Some (Dump (latest_posts st'))))
    ∧ latest_posts st' = load_current_posts (disk st').
Proof.
  eexists. split; [vm_compute; reflexivity |].
  match goal with
  | |- context [Some (Dump (latest_posts ?s))] =>
      destruct (scrape_ddm_news_serves_disk 2
                  (run_with second_page_times_out) sample_state s)
        as [Hserved Hload]; [vm_compute; reflexivity |]
  end.
  split; [exact Hserved |]. apply Hload; reflexivity.
Defined.

(** ** The pagination loop *)

(** Pages served in a row are consumed one per round: the loop goes on
    behind them with their posts appended in order. *)
Lemma pagination_loop_serves client (pages : list listing_page) :
  ∀ fuel req url all_posts,
    serves client req url pages →
    pagination_loop (length pages + fuel) client req url all_posts
    = pagination_loop fuel client (req + length pages) (url_after url pages)
        (all_posts ++ mjoin (page_posts <$> pages)).
Proof.
  induction pages as [| page rest IH]; intros fuel req url all_posts Hserves.
  - simpl. by rewrite Nat.add_0_r, app_nil_r.
  - destruct Hserves as (u & -> & Hpage & Hrest). simpl.
    rewrite Hpage.
    rewrite bool_decide_eq_false_2 by (intros Hne; by apply Hne).
    rewrite IH by done.
    by rewrite <- (assoc (++)), Nat.add_succ_r.
Qed.

(** More fuel does not change a result. *)
Lemma pagination_loop_more_fuel client fuel :
  ∀ extra req url all_posts r,
    pagination_loop fuel client req url all_posts = Some r →
    pagination_loop (fuel + extra) client req url all_posts = Some r.
Proof.
  induction fuel as [| fuel IH]; intros extra req url all_posts r.
  - destruct url; [done |]. intros [= <-]. by destruct extra.
  - destruct url as [u |]; [| done]. simpl.
    destruct (client req u) as [| | | status_code page]; try done.
    case_bool_decide; [done |]. apply IH.
Qed.

(** When the site serves its pages in a row and the last one has no usable
    next-page control, the loop ends, with any fuel of at least the number
    of pages, and has collected the posts of all pages in page order. *)
Theorem pagination_loop_complete client fuel (pages : list listing_page) acc :
  serves client 0 (Some ENTRY_URL) pages →
  url_after (Some ENTRY_URL) pages = None →
  (length pages ≤ fuel)%nat →
  pagination_loop fuel client 0 (Some ENTRY_URL) acc
  = Some (LoopDone (acc ++ mjoin (page_posts <$> pages))).
Proof.
  intros Hserves Hend Hfuel.
  replace fuel with (length pages + (fuel - length pages)) by lia.
  rewrite pagination_loop_serves by done. rewrite Hend.
  by destruct (fuel - length pages).
Qed.

Lemma pagination_loop_complete_witness :
  pagination_loop 5 two_pages 0 (Some ENTRY_URL) []
  = Some (LoopDone ([] ++ mjoin (page_posts <$> [first_page; last_page]))).
Proof.
  apply (pagination_loop_complete two_pages 5 [first_page; last_page] []).
  - simpl. eexists. split; [reflexivity |]. split; [reflexivity |].
    eexists. split; [reflexivity |]. split; [reflexivity | exact I].
  - reflexivity.
  - simpl. lia.
Defined.

(** When the site serves some pages in a row and the request for the next
    one fails, the way it fails decides the run: an exception leaves the
    loop with the posts of the pages served so far, a status other than
    200 makes the run return at once. *)
Theorem pagination_loop_interrupted
    client fuel (pages : list listing_page) acc u :
  serves client 0 (Some ENTRY_URL) pages →
  url_after (Some ENTRY_URL) pages = Some u →
  fetch_failed (client (length pages) u) →
  (length pages < fuel)%nat →
  pagination_loop fuel client 0 (Some ENTRY_URL) acc
  = Some match client (length pages) u with
         | Response _ _ => ReturnEarly
         | TimeoutException | RequestError _ | OtherException _ =>
             LoopDone (acc ++ mjoin (page_posts <$> pages))
         end.
Proof.
  intros Hserves Hend Hfailed Hfuel.
  replace fuel with (length pages + S (fuel - length pages - 1)) by lia.
  rewrite pagination_loop_serves by done. rewrite Hend. simpl.
  destruct (client (length pages) u) as [| | | status_code page]; try done.
  simpl in Hfailed. by rewrite bool_decide_eq_true_2.
Qed.

Lemma pagination_loop_interrupted_witness :
  pagination_loop 2 second_page_times_out 0 (Some ENTRY_URL) []
  = Some match second_page_times_out (length [first_page])
                 "https://www.ddm.org.tw/xmnews?xsmsid=0K297379120077217595&page=2"
         with
         | Response _ _ => ReturnEarly
         | TimeoutException | RequestError _ | OtherException _ =>
             LoopDone ([] ++ mjoin (page_posts <$> [first_page]))
         end.
Proof.
  apply (pagination_loop_interrupted second_page_times_out 2 [first_page] []).
  - simpl. eexists. split; [reflexivity |]. split; [reflexivity | exact I].
  - reflexivity.
  - exact I.
  - simpl. lia.
Defined.

(** The loop has no page ceiling: on a site whose every page answers 200
    and offers a next page, no amount of fuel brings the loop to an end. *)
Theorem pagination_loop_unbounded client :
  (∀ req url, ∃ page, client req url = Response 200 page
                      ∧ is_Some (next_url page)) →
  ∀ fuel req url all_posts,
    pagination_loop fuel client req (Some url) all_posts = None.
Proof.
  intros Hsite fuel.
  induction fuel as [| fuel IH]; intros req url all_posts; [done |].
  destruct (Hsite req url) as (page & Hpage & [u Hnext]). simpl.
  rewrite Hpage, Hnext.
  rewrite bool_decide_eq_false_2 by (intros Hne; by apply Hne).
  apply IH.
Qed.

(** A site whose every page is [first_page], which points to page 2. *)
Lemma pagination_loop_unbounded_witness :
  pagination_loop 100 (λ _ _, Response 200 first_page) 0 (Some ENTRY_URL) []
  = None.
Proof.
  apply (pagination_loop_unbounded (λ _ _, Response 200 first_page)).
  intros req url. exists first_page. split; [reflexivity |].
  simpl. eauto.
Defined.

(** ** The posts of one listing page *)

Lemma post_of_item_shape it p :
  post_of_item it = Some p →
  unresolved p
  ∧ Forall (λ t, t ≠ "") (tags p)
  ∧ ∃ text href,
      title_link it = Some (text, href)
      ∧ href ≠ ""
      ∧ title p = text
      ∧ detail_url p = "https://www.ddm.org.tw" +:+ href.
Proof.
  unfold post_of_item.
  destruct (title_link it) as [[text href] |]; [| done].
  case_bool_decide as Hhref; [done |]. intros [= <-]. simpl.
  split; [done |]. split.
  - apply Forall_forall. intros t Ht. by apply list_elem_of_filter in Ht as [? _].
  - by exists text, href.
Qed.

(** The first three items of a page never yield a post; every post a page
    yields comes from an item with a link whose [href] is not empty, has
    the site prefix in front of that [href], carries no empty tag and has
    neither [content] nor [error] yet. *)
Theorem page_posts_shape page :
  (length (page_posts page) ≤ length (all_items page) - 3)%nat
  ∧ Forall (λ p,
      unresolved p
      ∧ Forall (λ t, t ≠ "") (tags p)
      ∧ ∃ it text href,
          it ∈ drop 3 (all_items page)
          ∧ title_link it = Some (text, href)
          ∧ href ≠ ""
          ∧ title p = text
          ∧ detail_url p = "https://www.ddm.org.tw" +:+ href)
      (page_posts page).
Proof.
  unfold page_posts. split.
  - assert (Homap : ∀ l : list item,
              (length (omap post_of_item l) ≤ length l)%nat).
    { induction l as [| it l IH]; [done |].
      change (omap post_of_item (it :: l))
        with (match post_of_item it with
              | Some p => p :: omap post_of_item l
              | None => omap post_of_item l
              end).
      destruct (post_of_item it); simpl; lia. }
    etrans; [apply Homap |]. etrans; [apply length_filter |].
    by rewrite length_drop.
  - apply Forall_forall. intros p Hp.
    apply list_elem_of_omap in Hp as (it & Hit & Hpost).
    apply list_elem_of_filter in Hit as [_ Hit].
    destruct (post_of_item_shape it p Hpost)
      as (Hfresh & Htags & text & href & Hlink & Hhref & Htitle & Hurl).
    split; [done |]. split; [done |]. by exists it, text, href.
Qed.

(** ** The text of a detail page *)

Lemma concat_cons_nonempty (sep x : string) (xs : list string) :
  x ≠ "" → String.concat sep (x :: xs) ≠ "".
Proof.
  intros Hx. destruct x as [| c x]; [done |].
  destruct xs; simpl; [done |]. by rewrite string_app_cons.
Qed.

Lemma join_paragraphs_empty_inv (paragraphs : list string) :
  join_paragraphs paragraphs = "" → Forall (λ t, t = "") paragraphs.
Proof.
  unfold join_paragraphs. intros Hjoin.
  destruct (filter (λ t : string, t ≠ "") paragraphs) as [| x xs] eqn:Hfilter.
  - apply Forall_forall. intros t Ht.
    destruct (decide (t = "")) as [| Hne]; [done |].
    assert (Hin : t ∈ filter (λ t : string, t ≠ "") paragraphs)
      by by apply list_elem_of_filter.
    rewrite Hfilter in Hin. by apply not_elem_of_nil in Hin.
  - exfalso. apply (concat_cons_nonempty (newline +:+ newline) x xs); [| done].
    assert (Hin : x ∈ filter (λ t : string, t ≠ "") paragraphs)
      by (rewrite Hfilter; left).
    by apply list_elem_of_filter in Hin as [? _].
Qed.

Lemma filter_text_twice (texts : list string) :
  filter (λ t : string, t ≠ "") (filter (λ t : string, t ≠ "") texts)
  = filter (λ t : string, t ≠ "") texts.
Proof.
  induction texts as [| t ts IH]; [done |].
  rewrite filter_cons. destruct (decide (t ≠ "")) as [Ht | Ht]; [| done].
  rewrite filter_cons, decide_True by done. by rewrite IH.
Qed.

(** For a 200 response with the content region, [content] is the
    paragraphs that have text, joined by blank lines, with no [error]; it
    is the empty string exactly when no paragraph has text, and paragraphs
    without text make no difference to it. *)
Theorem fetch_post_detail_content client url paragraphs :
  client url = Response 200 (Some paragraphs) →
  let d := fetch_post_detail client url in
  d_content d = Some (join_paragraphs paragraphs)
  ∧ d_error d = None
  ∧ (d_content d = Some "" ↔ Forall (λ t, t = "") paragraphs)
  ∧ join_paragraphs (filter (λ t, t ≠ "") paragraphs)
    = join_paragraphs paragraphs.
Proof.
  intros Hout d. subst d. unfold fetch_post_detail. rewrite Hout.
  rewrite bool_decide_eq_false_2 by (intros Hne; by apply Hne).
  assert (Hcontent :
    d_content (if bool_decide (join_paragraphs paragraphs = "")
               then mk_detail url (Some "") None
               else mk_detail url (Some (join_paragraphs paragraphs)) None)
    = Some (join_paragraphs paragraphs)).
  { case_bool_decide as Hempty; simpl; [by rewrite Hempty | done]. }
  split; [done |]. split; [by case_bool_decide |]. split.
  - rewrite Hcontent. split.
    + intros [= Hempty]. by apply join_paragraphs_empty_inv.
    + intros Hall. by rewrite join_paragraphs_no_text.
  - unfold join_paragraphs. by rewrite filter_text_twice.
Qed.

Lemma fetch_post_detail_content_witness :
  let d := fetch_post_detail (flaky_detail_client 0) sample_url in
  d_content d = Some (join_paragraphs ["first"; ""; "second"])
  ∧ d_error d = None
  ∧ (d_content d = Some "" ↔ Forall (λ t, t = "") ["first"; ""; "second"])
  ∧ join_paragraphs (filter (λ t, t ≠ "") ["first"; ""; "second"])
    = join_paragraphs ["first"; ""; "second"].
Proof.
  apply (fetch_post_detail_content (flaky_detail_client 0) sample_url
           ["first"; ""; "second"]).
  reflexivity.
Defined.

(** ** Posts after the detail step *)

Lemma resolve_one_resolved_once client j p :
  unresolved p → resolved_once (resolve_one client j p).
Proof.
  intros [Hc He]. unfold resolved_once, resolve_one, fetch_post_detail.
  destruct p as [t u d tg ds c e]. simpl in Hc, He. subst c e.
  destruct (client j _) as [| msg | msg | status_code body]; simpl; eauto.
  case_bool_decide; simpl; eauto.
  destruct body as [paragraphs |]; [case_bool_decide |]; simpl; eauto.
Qed.

Lemma page_posts_unresolved page : Forall unresolved (page_posts page).
Proof.
  unfold page_posts. apply Forall_forall. intros p Hp.
  apply list_elem_of_omap in Hp as (it & _ & Hpost).
  by destruct (post_of_item_shape it p Hpost) as [? _].
Qed.

Lemma pagination_loop_unresolved client fuel :
  ∀ req url all_posts out,
    Forall unresolved all_posts →
    pagination_loop fuel client req url all_posts = Some (LoopDone out) →
    Forall unresolved out.
Proof.
  induction fuel as [| fuel IH]; intros req url all_posts out Hall.
  - destruct url; [done |]. by intros [= <-].
  - destruct url as [u |]; [| by intros [= <-]]. simpl.
    destruct (client req u) as [| | | status_code page];
      try by intros [= <-].
    case_bool_decide; [done |]. apply IH.
    apply Forall_app. split; [done | apply page_posts_unresolved].
Qed.

(** After a run, [latest_posts] is what it was before, or every post in it
    carries exactly one of [content] and [error]. *)
Theorem scrape_ddm_news_resolved_once fuel env st st' :
  scrape_ddm_news fuel env st = Some st' →
  latest_posts st' = latest_posts st
  ∨ Forall resolved_once (latest_posts st').
Proof.
  intros Hrun.
  destruct (scrape_ddm_news_cases fuel env st st' Hrun)
    as [-> | (all_posts & _ & Hloop & Hst')]; [by left |].
  cbv zeta in Hst'. subst st'. simpl.
  destruct (update_posts _ _ _ _ _).1; [right | by left].
  apply pagination_loop_unresolved in Hloop; [| done].
  unfold resolve_each. apply Forall_forall. intros q Hq.
  apply list_elem_of_lookup in Hq as [i Hq].
  rewrite list_lookup_imap in Hq.
  destruct (all_posts !! i) as [p |] eqn:Hp; [| done].
  injection Hq as <-. apply resolve_one_resolved_once.
  rewrite Forall_forall in Hloop. apply Hloop.
  apply list_elem_of_lookup. eauto.
Qed.

Lemma scrape_ddm_news_resolved_once_witness :
  ∃ st',
    scrape_ddm_news 2 (run_with second_page_times_out) sample_state = Some st'
    ∧ (latest_posts st' = latest_posts sample_state
       ∨ Forall resolved_once (latest_posts st')).
Proof.
  eexists. split; [vm_compute; reflexivity |].
  match goal with
  | |- context [Forall resolved_once (latest_posts ?s)] =>
      apply (scrape_ddm_news_resolved_once 2
               (run_with second_page_times_out) sample_state s)
  end.
  vm_compute. reflexivity.
Defined.

(** ** Batches *)

Lemma join_batches batch_size (posts : list post) n :
  mjoin ((λ i, take batch_size (drop i posts))
           <$> ((λ k, k * batch_size) <$> seq 0 n))
  = take (n * batch_size) posts.
Proof.
  induction n as [| n IH]; [done |].
  rewrite seq_S, !fmap_app, join_app, IH. simpl.
  rewrite app_nil_r, take_take_drop. f_equal. lia.
Qed.

(** For a batch size of at least one, the batches are consecutive, cover
    the list in order, each hold between one and [batch_size] posts, and
    the outcome of the detail step does not depend on the batch size. *)
Theorem resolve_all_batches batch_size client (posts : list post) :
  (1 ≤ batch_size)%nat →
  let starts := py_range_step (length posts) batch_size in
  mjoin ((λ i, take batch_size (drop i posts)) <$> starts) = posts
  ∧ Forall (λ i, (1 ≤ length (take batch_size (drop i posts)) ≤ batch_size)%nat)
      starts
  ∧ ∀ batch_size', (1 ≤ batch_size')%nat →
      resolve_all batch_size' client posts
      = resolve_all batch_size client posts.
Proof.
  intros Hbs starts. subst starts. unfold py_range_step.
  set (a := length posts + batch_size - 1).
  pose proof (Nat.div_mod_eq a batch_size) as Hdiv.
  pose proof (Nat.mod_upper_bound a batch_size ltac:(lia)) as Hmod.
  set (n := a `div` batch_size) in *.
  split; [| split].
  - rewrite join_batches. apply take_ge. subst a. nia.
  - apply Forall_forall. intros i Hi.
    apply list_elem_of_fmap in Hi as (k & -> & Hk).
    apply elem_of_seq in Hk.
    rewrite length_take, length_drop.
    assert (k * batch_size < length posts)%nat by (subst a; nia). lia.
  - intros batch_size' Hbs'. by rewrite !resolve_all_each.
Qed.

Lemma resolve_all_batches_witness :
  let posts := sample_post <$> seq 0 5 in
  let starts := py_range_step (length posts) 2 in
  mjoin ((λ i, take 2 (drop i posts)) <$> starts) = posts
  ∧ Forall (λ i, (1 ≤ length (take 2 (drop i posts)) ≤ 2)%nat) starts
  ∧ ∀ batch_size', (1 ≤ batch_size')%nat →
      resolve_all batch_size' flaky_detail_client posts
      = resolve_all 2 flaky_detail_client posts.
Proof.
  apply (resolve_all_batches 2 flaky_detail_client (sample_post <$> seq 0 5)).
  lia.
Defined.

(** ** Successive rounds of the trigger *)


Lemma add_one_day_time d d' :
  add_one_day d = Some d' →
  hour d' = hour d ∧ minute d' = minute d
  ∧ second d' = second d ∧ microsecond d' = microsecond d.
Proof.
  unfold add_one_day. intros Hadd.
  repeat (destruct (_ <? _)%nat in Hadd);
    try discriminate Hadd; by injection Hadd as <-.
Qed.

(** A computed next run is on the target minute, at second zero. *)
Lemma next_run_time now h m nr :
  next_run now h m = Some nr →
  (h < 24)%nat ∧ (m < 60)%nat
  ∧ hour nr = h ∧ minute nr = m ∧ second nr = 0 ∧ microsecond nr = 0.
Proof.
  unfold next_run, replace_time.
  destruct (Nat.ltb_spec h 24) as [Hh |]; [| done].
  destruct (Nat.ltb_spec m 60) as [Hm |]; [| done]. simpl.
  destruct (datetime_ge _ _).
  - intros Hadd. apply add_one_day_time in Hadd. simpl in Hadd.
    repeat split; tauto || done.
  - by intros [= <-].
Qed.

Lemma days_in_month_ge y m : (28 ≤ days_in_month y m)%nat.
Proof.
  unfold days_in_month.
  do 12 (destruct m as [| m]; [try destruct (is_leap y); lia |]). lia.
Qed.

Lemma add_one_day_valid d d' :
  valid_datetime d = true →
  add_one_day d = Some d' →
  valid_datetime d' = true.
Proof.
  intros Hvalid.
  destruct (valid_datetime_fields d Hvalid)
    as (Hy & Hm & Hd & Hh & Hmin & Hs & Hus).
  unfold add_one_day.
  destruct (Nat.ltb_spec (day d) (days_in_month (year d) (month d))).
  2: destruct (Nat.ltb_spec (month d) 12).
  3: destruct (Nat.ltb_spec (year d) MAXYEAR); [| done].
  all: intros [= <-]; unfold valid_datetime;
    cbn [year month day hour minute second microsecond];
    rewrite !andb_true_iff, !Nat.leb_le, !Nat.ltb_lt, Z.ltb_lt.
  - repeat split; lia.
  - pose proof (days_in_month_ge (year d) (S (month d))).
    repeat split; lia.
  - pose proof (days_in_month_ge (S (year d)) 1).
    repeat split; lia.
Qed.

Lemma next_run_valid now h m nr :
  valid_datetime now = true →
  next_run now h m = Some nr →
  valid_datetime nr = true.
Proof.
  intros Hvalid Hnr.
  destruct (next_run_time now h m nr Hnr) as (Hh & Hm & _).
  revert Hnr. unfold next_run, replace_time.
  rewrite (proj2 (Nat.ltb_lt h 24) Hh), (proj2 (Nat.ltb_lt m 60) Hm). simpl.
  fold (at_time now h m).
  pose proof (valid_at_time now h m Hvalid Hh Hm) as Hat.
  destruct (datetime_ge _ _).
  - by apply add_one_day_valid.
  - by intros [= <-].
Qed.


(** ** Paging through the dataset *)

Lemma get_posts_slice (latest : list post) archive_stamp (offset limit : Z) :
  (0 ≤ offset)%Z → (1 ≤ limit)%Z →
  let r := get_posts latest archive_stamp (Some offset) (Some limit) in
  r_posts r = take (Z.to_nat limit) (drop (Z.to_nat offset) latest)
  ∧ r_has_more r = (offset + limit <? Z.of_nat (length latest))%Z.
Proof.
  intros Hoffset Hlimit r.
  destruct (get_posts_fields latest archive_stamp offset limit ltac:(lia))
    as (Hposts & _ & Hmore & _).
  fold r in Hposts, Hmore. rewrite Hposts, Hmore. split.
  - rewrite py_slice_nonneg by lia.
    destruct (Z.le_gt_cases (offset + limit) (Z.of_nat (length latest))).
    + rewrite Z.min_l by lia. f_equal. lia.
    + rewrite Z.min_r by lia.
      rewrite !take_ge; [done | |]; rewrite length_drop; lia.
  - destruct (Z.ltb_spec ((offset + limit) `min` Z.of_nat (length latest))
                (Z.of_nat (length latest))),
      (Z.ltb_spec (offset + limit) (Z.of_nat (length latest)));
      try done; lia.
Qed.

(** Pages tile the dataset: the posts before [offset] followed by the page
    at [offset] are the posts before [offset + limit]. While [has_more] is
    set the page is full and the page that follows is not empty; once it
    is unset the page runs to the end of the dataset and the page that
    follows is empty. *)
Theorem get_posts_pages_tile
    (latest : list post) archive_stamp (offset limit : Z) :
  (0 ≤ offset)%Z →
  (1 ≤ limit ≤ 100)%Z →
  let r := get_posts latest archive_stamp (Some offset) (Some limit) in
  let next :=
    get_posts latest archive_stamp (Some (offset + limit)%Z) (Some limit) in
  take (Z.to_nat offset) latest ++ r_posts r
  = take (Z.to_nat (offset + limit)) latest
  ∧ (r_has_more r = true →
       length (r_posts r) = Z.to_nat limit ∧ r_posts next ≠ [])
  ∧ (r_has_more r = false →
       r_posts r = drop (Z.to_nat offset) latest ∧ r_posts next = []).
Proof.
  intros Hoffset Hlimit r next.
  destruct (get_posts_slice latest archive_stamp offset limit)
    as [Hposts Hmore]; [lia | lia |].
  destruct (get_posts_slice latest archive_stamp (offset + limit) limit)
    as [Hnext _]; [lia | lia |].
  fold r in Hposts, Hmore. fold next in Hnext.
  rewrite Hposts, Hmore, Hnext. split; [| split].
  - rewrite take_take_drop. f_equal. lia.
  - intros Hlt. apply Z.ltb_lt in Hlt. split.
    + rewrite length_take, length_drop. lia.
    + intros Hnil. apply (f_equal length) in Hnil.
      rewrite length_take, length_drop in Hnil. simpl in Hnil. lia.
  - intros Hge. apply Z.ltb_ge in Hge. split.
    + apply take_ge. rewrite length_drop. lia.
    + rewrite drop_ge by lia. apply take_nil.
Qed.

Lemma get_posts_pages_tile_witness :
  let latest := sample_post <$> seq 0 5 in
  let r := get_posts latest None (Some 2%Z) (Some 2%Z) in
  let next := get_posts latest None (Some (2 + 2)%Z) (Some 2%Z) in
  take (Z.to_nat 2) latest ++ r_posts r = take (Z.to_nat (2 + 2)) latest
  ∧ (r_has_more r = true →
       length (r_posts r) = Z.to_nat 2 ∧ r_posts next ≠ [])
  ∧ (r_has_more r = false →
       r_posts r = drop (Z.to_nat 2) latest ∧ r_posts next = []).
Proof.
  apply (get_posts_pages_tile (sample_post <$> seq 0 5) None 2 2); lia.
Defined.

(** * The pipeline as a whole *)

(** On a site that serves its listing pages in a row, the last one without
    a next page, and with a publish call that meets no fault, a run
    publishes the posts of all pages in page order, each resolved by its
    own request: they become [latest_posts] and the content of the current
    posts file, and what the current file held before goes to the
    archive. *)
Theorem scrape_ddm_news_publishes_listing
    fuel env st (pages : list listing_page) :
  serves (listing_client env) 0 (Some ENTRY_URL) pages →
  url_after (Some ENTRY_URL) pages = None →
  (length pages ≤ fuel)%nat →
  mjoin (page_posts <$> pages) ≠ [] →
  disk_faults env = no_faults →
  ∃ st',
    scrape_ddm_news fuel env st = Some st'
    ∧ latest_posts st'
      = resolve_each (detail_client env) (mjoin (page_posts <$> pages))
    ∧ detail_url <$> latest_posts st'
      = detail_url <$> mjoin (page_posts <$> pages)
    ∧ disk st' !! POSTS_FILE = Some (Dump (latest_posts st'))
    ∧ ∀ c, disk st !! POSTS_FILE = Some c →
           disk st' !! archive_file (clock1 env) (clock2 env) (disk st)
           = Some c.
Proof.
  intros Hserves Hend Hfuel Hne Hfaults.
  set (all_posts := mjoin (page_posts <$> pages)) in *.
  assert (Hloop : pagination_loop fuel (listing_client env) 0
                    (Some ENTRY_URL) [] = Some (LoopDone all_posts)).
  { replace fuel with (length pages + (fuel - length pages)) by lia.
    rewrite pagination_loop_serves by done. rewrite Hend.
    by destruct (fuel - length pages). }
  unfold scrape_ddm_news. rewrite Hloop.
  rewrite bool_decide_eq_true_2 by done.
  rewrite resolve_all_each by lia. rewrite Hfaults.
  set (new_posts := resolve_each (detail_client env) all_posts).
  pose proof (update_posts_cases no_faults (clock1 env) (clock2 env)
                new_posts (disk st)) as Hcall.
  cbv zeta in Hcall. simpl in Hcall.
  pose proof POSTS_FILE_ne_new as Hnew.
  destruct (archive_file_ne_current (clock1 env) (clock2 env) (disk st))
    as [Ha1 Ha2].
  assert (Hurls : detail_url <$> new_posts = detail_url <$> all_posts).
  { subst new_posts. unfold resolve_each.
    apply list_eq. intros i.
    rewrite !list_lookup_fmap, list_lookup_imap.
    destruct (all_posts !! i) as [p |]; [| done]. simpl. f_equal.
    unfold resolve_one.
    by destruct (record_detail_keeps
                   (inr (fetch_post_detail (detail_client env i)
                           (detail_url p))) p) as (_ & ? & _). }
  destruct (disk st !! POSTS_FILE) as [c |] eqn:Hcur;
    rewrite Hcall; eexists; (split; [reflexivity |]); simpl;
    (split; [done |]); (split; [done |]).
  - split; [by simplify_map_eq |].
    intros c' [= <-]. by simplify_map_eq.
  - split; [by simplify_map_eq | done].
Qed.

Lemma scrape_ddm_news_publishes_listing_witness :
  ∃ st',
    scrape_ddm_news 5 (run_with two_pages) sample_state = Some st'
    ∧ latest_posts st'
      = resolve_each detail_ok (mjoin (page_posts <$> [first_page; last_page]))
    ∧ detail_url <$> latest_posts st'
      = detail_url <$> mjoin (page_posts <$> [first_page; last_page])
    ∧ disk st' !! POSTS_FILE = Some (Dump (latest_posts st'))
    ∧ ∀ c, disk sample_state !! POSTS_FILE = Some c →
           disk st' !! archive_file sample_now sample_now (disk sample_state)
           = Some c.
Proof.
  apply (scrape_ddm_news_publishes_listing 5 (run_with two_pages)
           sample_state [first_page; last_page]).
  - simpl. eexists. split; [reflexivity |]. split; [reflexivity |].
    eexists. split; [reflexivity |]. split; [reflexivity | exact I].
  - reflexivity.
  - simpl. lia.
  - discriminate.
  - reflexivity.
Defined.

(** ** Rounds of the trigger *)


(** For a usable clock reading the next run exists exactly when the target
    is a time of day, and the wait for it is positive and at most a day. *)
Lemma next_run_wait now h m :
  valid_datetime now = true →
  is_last_day now = false →
  match next_run now h m with
  | Some nr =>
      (h < 24)%nat ∧ (m < 60)%nat
      ∧ (0 < wait_microseconds now nr ≤ microseconds_per_day)%Z
  | None => ¬ ((h < 24)%nat ∧ (m < 60)%nat)
  end.
Proof.
  intros Hvalid Hlast.
  destruct (valid_datetime_fields now Hvalid)
    as (_ & _ & _ & Hhour & Hmin & Hsec & Hus).
  unfold next_run, replace_time.
  destruct (Nat.ltb_spec h 24) as [Hh |]; [| simpl; lia].
  destruct (Nat.ltb_spec m 60) as [Hm |]; [| simpl; lia]. simpl.
  fold (at_time now h m).
  pose proof (datetime_ge_at_time now h m Hvalid Hm) as Hge.
  destruct (datetime_ge now (at_time now h m)) eqn:Hcmp.
  - assert (Hpast : (time_of_day (at_time now h m) ≤ time_of_day now)%Z)
      by (by apply Hge).
    destruct (toordinal_add_one_day (at_time now h m)
                (valid_at_time now h m Hvalid Hh Hm) Hlast)
      as (nr & -> & Hord & Hnh & Hnm & Hns & Hnus).
    change (toordinal (at_time now h m)) with (toordinal now) in Hord.
    simpl in Hnh, Hnm, Hns, Hnus.
    split; [done |]. split; [done |].
    unfold wait_microseconds, to_microseconds, microseconds_per_day.
    rewrite Hord, Hnh, Hnm, Hns, Hnus.
    unfold time_of_day in Hpast. simpl in Hpast. lia.
  - assert (Hbefore : (time_of_day now < time_of_day (at_time now h m))%Z).
    { destruct (Z.lt_ge_cases (time_of_day now)
                  (time_of_day (at_time now h m))) as [| Hle]; [done |].
      apply Hge in Hle. congruence. }
    split; [done |]. split; [done |].
    unfold wait_microseconds, to_microseconds, microseconds_per_day.
    change (toordinal (at_time now h m)) with (toordinal now).
    unfold time_of_day in Hbefore. simpl in *. lia.
Qed.



(** * The trigger in its timezone *)

(** C8, the failing reading: 03:05 on 2024-03-09 on the clock of
    America/Los_Angeles, target 03:00. The fields computed are 03:00 on
    2024-03-10, still with the offset UTC-8 of the reading. The clocks of
    the zone go forward that night: at the instant computed the zone is at
    UTC-7 and its clock shows 04:00, and tomorrow's target time, 03:00 on
    the zone's clock, is one hour earlier. *)
Theorem next_run_aware_misses_target_across_dst :
  reading_of los_angeles_2024 before_dst
  ∧ next_run_aware before_dst 3 0
    = Some (mk_aware (mk_datetime 2024 3 10 3 0 0 0) (-28800))
  ∧ ¬ reading_of los_angeles_2024
        (mk_aware (mk_datetime 2024 3 10 3 0 0 0) (-28800))
  ∧ reading_of los_angeles_2024
      (mk_aware (mk_datetime 2024 3 10 4 0 0 0) (-25200))
  ∧ instant (mk_aware (mk_datetime 2024 3 10 4 0 0 0) (-25200))
    = instant (mk_aware (mk_datetime 2024 3 10 3 0 0 0) (-28800))
  ∧ reading_of los_angeles_2024
      (mk_aware (mk_datetime 2024 3 10 3 0 0 0) (-25200))
  ∧ (instant (mk_aware (mk_datetime 2024 3 10 3 0 0 0) (-28800))
     - instant (mk_aware (mk_datetime 2024 3 10 3 0 0 0) (-25200))
     = 3600 * 1000000)%Z.
Proof.
  split; [by vm_compute |]. split; [by vm_compute |].
  split; [intros [_ Hoffset]; vm_compute in Hoffset; discriminate |].
  split; [by vm_compute |]. split; [by vm_compute |].
  split; by vm_compute.
Qed.

(** ** Dates and instants *)








(** ** Successive rounds on the zone's clock *)


(** For a reading of the zone's clock and a target that is a time of day,
    the run computed is at the target minute, later than the reading by at
    most one day of real time, and carries the offset of the reading. It is
    the time the zone's clock shows at that instant whenever the zone's
    offset is then still the offset of the reading. *)
Theorem next_run_aware_on_target (tz : timezone) now h m :
  reading_of tz now →
  is_last_day (fields now) = false →
  (h < 24)%nat →
  (m < 60)%nat →
  ∃ nr,
    next_run_aware now h m = Some nr
    ∧ hour (fields nr) = h ∧ minute (fields nr) = m
    ∧ second (fields nr) = 0 ∧ microsecond (fields nr) = 0
    ∧ utcoffset nr = utcoffset now
    ∧ (instant now < instant nr ≤ instant now + microseconds_per_day)%Z
    ∧ (tz (instant nr) = utcoffset now → reading_of tz nr).
Proof.
  intros [Hvalid Hoffset] Hlast Hh Hm.
  pose proof (next_run_wait (fields now) h m Hvalid Hlast) as Hwait.
  unfold next_run_aware.
  destruct (next_run (fields now) h m) as [d |] eqn:Hd; [| tauto].
  destruct Hwait as (_ & _ & Hbound).
  destruct (next_run_time (fields now) h m d Hd)
    as (_ & _ & Hdh & Hdm & Hds & Hdus).
  eexists. split; [reflexivity |]. simpl.
  repeat (split; [done |]).
  split; [unfold instant, wait_microseconds in *; simpl; lia |].
  intros Hsame. split; simpl; [| done].
  by apply (next_run_valid (fields now) h m).
Qed.

Lemma next_run_aware_on_target_witness :
  ∃ nr,
    next_run_aware plain_day 3 0 = Some nr
    ∧ hour (fields nr) = 3 ∧ minute (fields nr) = 0
    ∧ second (fields nr) = 0 ∧ microsecond (fields nr) = 0
    ∧ utcoffset nr = utcoffset plain_day
    ∧ (instant plain_day < instant nr
       ≤ instant plain_day + microseconds_per_day)%Z
    ∧ (los_angeles_2024 (instant nr) = utcoffset plain_day →
         reading_of los_angeles_2024 nr).
Proof.
  apply (next_run_aware_on_target los_angeles_2024 plain_day 3 0).
  - by vm_compute.
  - reflexivity.
  - lia.
  - lia.
Defined.



(** Across the change of offset it is otherwise: the run computed at 03:05
    on 2024-03-09 wakes the trigger when the zone's clock shows 04:00 on
    2024-03-10, and the next wait is 23 hours. *)
Example next_run_aware_after_dst :
  next_run_aware (mk_aware (mk_datetime 2024 3 10 4 0 0 0) (-25200)) 3 0
  = Some (mk_aware (mk_datetime 2024 3 11 3 0 0 0) (-25200))
  ∧ wait_microseconds (mk_datetime 2024 3 10 4 0 0 0)
      (mk_datetime 2024 3 11 3 0 0 0)
    = (23 * 3600 * 1000000)%Z.
Proof. by vm_compute. Qed.
